(** * Ecosia scraper: a shallow embedding of [main.py] and its properties

    The program fetches the result pages of a batch of search queries
    through a proxy, extracts result records from the markup and writes
    one JSON document per query.

    Part I embeds the program: text, the parsed markup, [parse_page],
    [fetch_page], [scrape_query], [save_to_json], [process_query], [main]
    and the event loop that interleaves their tasks under the two
    semaphores.  Part II states and proves its properties, Part III further
    properties of the same functions. *)

From Stdlib Require Import ZArith NArith Lia List String Ascii DecimalString Permutation.
From Stdlib Require DecimalPos DecimalZ.
From stdpp Require Import base tactics option list sorting gmap.

Set Default Proof Using "Type".
Open Scope Z_scope.

(* ===================================================================== *)
(** * Part I: the program                                                 *)
(* ===================================================================== *)

(** ** Text

    A Python [str] is a sequence of Unicode code points. *)

Abbreviation str := (list N).

Definition py (s : string) : str := N_of_ascii <$> list_ascii_of_string s.
Arguments py s%_string.

(** ** Exceptions

    A call returns a value or raises. *)

Inductive exn :=
| ClientError
| TimeoutError
| PayloadError
| OSError
| ValueError
| ParserRejectedMarkup.

Inductive outcome (A : Type) :=
| Ok (a : A)
| Raise (e : exn).
Arguments Ok {A} a.
Arguments Raise {A} e.

#[global] Instance outcome_ret : MRet outcome := fun A a => Ok a.

#[global] Instance outcome_bind : MBind outcome := fun A B f r =>
  match r with
  | Ok a => f a
  | Raise x => Raise x
  end.

#[global] Instance outcome_fmap : FMap outcome := fun A B f r =>
  match r with
  | Ok a => Ok (f a)
  | Raise x => Raise x
  end.

(** What the program takes from the interpreter and from the packages it
    imports, and which is not part of its source: the Unicode tables above
    ASCII behind [str.isalnum], [str.strip] and [str.lower],
    [urllib.parse.quote], the [netloc] component of
    [urllib.parse.urlparse], which raises [ValueError] on an address it
    rejects, and the markup parser behind
    [BeautifulSoup(html, 'html.parser')], which raises on markup it
    rejects. *)

#[warnings="-register-all"]
Inductive node :=
| NavigableString (text : str)
| Tag (name : str) (attrs : list (str * str)) (contents : list node).

Class PyLib := {
  isalnum_tab : N -> bool;
  isspace_tab : N -> bool;
  lower_tab : N -> str;
  quote : str -> str;
  netloc : str -> outcome str;
  BeautifulSoup : str -> outcome (list node);
}.

Section Text.
Context `{PyLib}.

Definition between (lo hi c : N) : bool := ((lo <=? c) && (c <=? hi))%N.

(** [c.isalnum()] *)
Definition isalnum (c : N) : bool :=
  if (c <? 128)%N
  then between 48 57 c || between 65 90 c || between 97 122 c
  else isalnum_tab c.

(** [c.isspace()], the characters removed by [strip()] *)
Definition isspace (c : N) : bool :=
  if (c <? 128)%N
  then (c =? 32)%N || between 9 13 c || between 28 31 c
  else isspace_tab c.

Definition lower_char (c : N) : str :=
  if (c <? 128)%N
  then [if between 65 90 c then (c + 32)%N else c]
  else lower_tab c.

(** [s.lower()] *)
Definition lower (s : str) : str := flat_map lower_char s.

(** [s.startswith(p)] *)
Fixpoint startswith (s p : str) : bool :=
  match p, s with
  | [], _ => true
  | _ :: _, [] => false
  | a :: p', b :: s' => (a =? b)%N && startswith s' p'
  end.

(** [p in s] *)
Fixpoint contains (p s : str) : bool :=
  startswith s p ||
  match s with
  | [] => false
  | _ :: s' => contains p s'
  end.

Fixpoint lstrip (s : str) : str :=
  match s with
  | [] => []
  | c :: s' => if isspace c then lstrip s' else s
  end.

(** [s.strip()] *)
Definition strip (s : str) : str := rev (lstrip (rev (lstrip s))).

(** [s.replace(a, b)] for one-character [a] and [b] *)
Definition replace (a b : N) (s : str) : str :=
  (fun c => if (c =? a)%N then b else c) <$> s.

(** [str(n)] *)
Definition str_of_Z (n : Z) : str := py (NilZero.string_of_int (Z.to_int n)).
End Text.

(** ** Destination identifier (lines 148-149 of [process_query]) *)

Section Sanitize.
Context `{PyLib}.

Definition space : N := 32.
Definition underscore : N := 95.

(** [c.isalnum() or c in (' ', '_')] *)
Definition retained (c : N) : bool :=
  isalnum c || (c =? space)%N || (c =? underscore)%N.

(** [''.join(c for c in query if ...).replace(' ', '_')] *)
Definition safe_query (query : str) : str :=
  replace space underscore (List.filter retained query).

(** [f"{safe_query}.json"] *)
Definition filename_of (query : str) : str := safe_query query ++ py ".json".
End Sanitize.

(** ** Parsed markup and [parse_page] *)

Record ResultRecord := {
  title : str;
  link : str;
  description : str;
  favicon_path : str;
  keyword : str;
}.

Record PageResult := {
  page : Z;
  results : list ResultRecord;
}.

Section Parser.
Context `{PyLib}.

(** The nodes below a node, in document order. *)
Fixpoint descendants (n : node) : list node :=
  match n with
  | NavigableString _ => []
  | Tag _ _ cs => flat_map (fun c => c :: descendants c) cs
  end.

Definition all_nodes (soup : list node) : list node :=
  flat_map (fun c => c :: descendants c) soup.

(** [tag[key]] when present: the parser keeps one value per attribute. *)
Fixpoint attr (key : str) (attrs : list (str * str)) : option str :=
  match attrs with
  | [] => None
  | (k, v) :: rest => if decide (k = key) then Some v else attr key rest
  end.

Definition class_has (needle : str) (attrs : list (str * str)) : bool :=
  match attr (py "class") attrs with
  | Some v => contains needle v
  | None => false
  end.

(** One element of [div:not([class*="ad"]):not([class*="cookie"])] *)
Definition is_candidate (n : node) : bool :=
  match n with
  | Tag name attrs _ =>
      bool_decide (name = py "div")
      && negb (class_has (py "ad") attrs)
      && negb (class_has (py "cookie") attrs)
  | NavigableString _ => false
  end.

Definition select (soup : list node) : list node :=
  List.filter is_candidate (all_nodes soup).

(** [lambda t: t and 'provided by Google' in t.lower()] *)
Definition sponsored_text (t : str) : bool :=
  negb (bool_decide (t = [])) && contains (py "provided by Google") (lower t).

Definition strings_of (n : node) : list str :=
  omap (fun d => match d with NavigableString t => Some t | Tag _ _ _ => None end)
       (descendants n).

(** [result.find(text=...)] is truthy *)
Definition find_sponsored (result : node) : bool :=
  existsb sponsored_text (strings_of result).

(** [result.find('a', href=True)]: the tag's attributes and its [.text] *)
Definition text_of (n : node) : str := concat (strings_of n).

Definition find_link (result : node) : option (str * str) :=
  head (omap (fun d => match d with
                       | Tag name attrs _ =>
                           if bool_decide (name = py "a")
                           then (fun h => (h, text_of d)) <$> attr (py "href") attrs
                           else None
                       | NavigableString _ => None
                       end) (descendants result)).

(** [lambda x: x and ('description' in x.lower() or 'snippet' in x.lower()
    or 'result' in x.lower())] *)
Definition description_class (attrs : list (str * str)) : bool :=
  match attr (py "class") attrs with
  | Some x =>
      contains (py "description") (lower x)
      || contains (py "snippet") (lower x)
      || contains (py "result") (lower x)
  | None => false
  end.

Definition find_description (result : node) : option str :=
  head (omap (fun d => match d with
                       | Tag name attrs _ =>
                           if bool_decide (name = py "div") && description_class attrs
                           then Some (text_of d) else None
                       | NavigableString _ => None
                       end) (descendants result)).

(** The body of the loop of [parse_page]: [Ok None] is [continue], [Raise]
    is the [ValueError] of [urlparse(link)] at line 89, which nothing
    catches. *)
Definition parse_result (kw : str) (container : node) : outcome (option ResultRecord) :=
  if find_sponsored container then Ok None
  else match find_link container with
       | None => Ok None
       | Some (href, link_text) =>
           if negb (startswith href (py "http")) then Ok None
           else
             domain ← netloc href;
             Ok (Some {|
               title := match strip link_text with
                        | [] => py "No title"
                        | t => t
                        end;
               link := href;
               description := match find_description container with
                              | Some d => strip d
                              | None => []
                              end;
               favicon_path := py "https://www.google.com/s2/favicons?domain=" ++ domain;
               keyword := kw |})
       end.

(** [parse_page] raises what the markup parser raises at line 64 and what
    the first container raises whose link [urlparse] rejects. *)
Definition parse_page (html : option str) (kw : str) (page_num : Z) : outcome PageResult :=
  match html with
  | None => Ok {| page := page_num; results := [] |}
  | Some h =>
      soup ← BeautifulSoup h;
      records ← mapM (parse_result kw) (select soup);
      Ok {| page := page_num; results := omap id records |}
  end.
End Parser.

(** ** Effects

    A coroutine is run against an environment, which answers what the
    program cannot decide (the User-Agent generator, the network behind the
    proxy, the file system), and a world, which records what it did. *)

(** What [session.get] and [response.text()] come to in one attempt: a
    response with its status and decoded body, or an exception raised on
    the way (connection refused, timeout, broken payload). *)
Inductive reply :=
| Response (status : Z) (text : str)
| Fails (e : exn).

(** What [open(filename, 'w')] and [json.dump] come to: the document is
    written, [open] raises and the file is not touched, or [open] has
    truncated the file and the writing raises. *)
Inductive saving := Written | OpenFails | WriteFails.

Inductive limiter := PageSem | QuerySem.

Inductive event :=
| EvOpen
| EvAcquire (l : limiter)
| EvRequest (url user_agent : str)
| EvRelease (l : limiter)
| EvClose
| EvSleep (seconds : Z)
| EvWrite (filename : str).

(** What a coroutine did: an event of its own, or the children of a
    [gather], each with the events of its own task. *)
Inductive item :=
| Ev (ev : event)
| Tasks (children : list (list event)).

(** [{query: structured_data}] *)
Abbreviation document := (gmap str (list PageResult)).

(** A file holds a whole document, or what an interrupted writing left. *)
Inductive file :=
| Complete (data : document)
| Partial.

Record env := {
  ua_random : nat -> str;
  http_get : str -> str -> nat -> reply;
  sink : str -> saving;
}.

Record world := {
  ua_draws : nat;
  trace : list item;
  files : gmap str file;
}.

Definition M (A : Type) : Type := env -> world -> outcome A * world.

#[global] Instance M_ret : MRet M := fun A a _ w => (Ok a, w).

#[global] Instance M_bind : MBind M := fun A B f m e w =>
  match m e w with
  | (Ok a, w') => f a e w'
  | (Raise x, w') => (Raise x, w')
  end.

(** A call of a function that has no effect. *)
Definition lift {A} (r : outcome A) : M A := fun _ w => (r, w).

(** [try: body except Exception as e: handler(e)] *)
Definition try_except {A} (body : M A) (handler : exn -> M A) : M A :=
  fun e w =>
    match body e w with
    | (Raise x, w') => handler x e w'
    | r => r
    end.

(** [try: body finally: cleanup], and the exit of [async with] *)
Definition finally {A} (body : M A) (cleanup : M unit) : M A :=
  fun e w =>
    let '(r, w') := body e w in
    match cleanup e w' with
    | (Ok _, w'') => (r, w'')
    | (Raise x, w'') => (Raise x, w'')
    end.

Definition record (items : list item) (w : world) : world :=
  {| ua_draws := ua_draws w; trace := trace w ++ items; files := files w |}.

Definition push (w : world) (evs : list event) : world := record (Ev <$> evs) w.

Definition emit (ev : event) : M unit := fun _ w => (Ok tt, push w [ev]).

(** The children of a [gather] enter the trace of the task that awaits
    them. *)
Definition note (children : list (list event)) : M unit :=
  fun _ w => (Ok tt, record [Tasks children] w).

(** [for x in xs: body] where the body may [return] *)
Fixpoint for_return {A R} (xs : list A) (body : A -> M (option R)) (orelse : M R) : M R :=
  match xs with
  | [] => orelse
  | x :: xs' =>
      r ← body x;
      match r with
      | Some v => mret v
      | None => for_return xs' body orelse
      end
  end.

(** ** Configuration *)

Definition PAGES : Z := 5.
Definition RETRIES : nat := 3.

(** [asyncio.Semaphore(10)] and [asyncio.Semaphore(3)] *)
Definition slots (l : limiter) : nat :=
  match l with
  | PageSem => 10
  | QuerySem => 3
  end.

(** ** [EcosiaScraper.fetch_page] *)

(** [async with l: body] *)
Definition async_with {A} (l : limiter) (body : M A) : M A :=
  emit (EvAcquire l);; finally body (emit (EvRelease l)).

Section Fetcher.
(** [self.ua.random] *)
Definition random_user_agent : M str :=
  fun e w =>
    (Ok (ua_random e (ua_draws w)),
     {| ua_draws := S (ua_draws w); trace := trace w; files := files w |}).

(** [session.get(url, headers=headers)], then the status and the body *)
Definition receive (url headers : str) (attempt : nat) : M (Z * str) :=
  fun e w =>
    match http_get e url headers attempt with
    | Response status text => (Ok (status, text), w)
    | Fails x => (Raise x, w)
    end.

Definition session_get (url headers : str) (attempt : nat) : M (Z * str) :=
  emit (EvRequest url headers);; receive url headers attempt.

(** One turn of the loop up to the [finally]: [Some html] is [return html]. *)
Definition attempt_once (url headers : str) (attempt : nat) : M (option str) :=
  emit EvOpen;;
  finally
    (try_except
       (async_with PageSem
          ('(status, text) ← session_get url headers attempt;
           if status =? 200 then mret (Some text) else mret None))
       (fun _ => mret None))
    (emit EvClose).

(** The body of the loop: [Some v] is [return v], [None] goes on. *)
Definition loop_body (url headers : str) (attempt : nat) : M (option (option str)) :=
  r ← attempt_once url headers attempt;
  match r with
  | Some html => mret (Some (Some html))
  | None =>
      (if (attempt <? RETRIES - 1)%nat then emit (EvSleep 2) else mret tt);;
      mret None
  end.

Definition fetch_page (url : str) : M (option str) :=
  headers ← random_user_agent;
  for_return (seq 0 RETRIES) (loop_body url headers) (mret None).
End Fetcher.

(** The events of a trace, those of the children of a [gather] child after
    child. *)
Definition events_of (items : list item) : list event :=
  flat_map (fun it => match it with
                      | Ev ev => [ev]
                      | Tasks children => concat children
                      end) items.

(** The requests in a trace, as (url, User-Agent) pairs. *)
Definition requests (tr : list event) : list (str * str) :=
  omap (fun ev => match ev with
                  | EvRequest url user_agent => Some (url, user_agent)
                  | _ => None
                  end) tr.

(** What a run added to the trace. *)
Definition new_events (w w' : world) : list event :=
  events_of (drop (length (trace w)) (trace w')).

(** The body that an attempt returns: that of a response with status 200. *)
Definition accepted (r : reply) : option str :=
  match r with
  | Response status text => if status =? 200 then Some text else None
  | Fails _ => None
  end.

(** An attempt fails on any other status and on an exception. *)
Definition attempt_fails (r : reply) : bool :=
  match r with
  | Response status _ => negb (status =? 200)
  | Fails _ => true
  end.

(** The first accepted body among the attempts [ks] of one call, and the
    number of attempts made up to it. *)
Fixpoint first_accepted (replies : nat -> reply) (ks : list nat) : option str :=
  match ks with
  | [] => None
  | k :: ks' =>
      match accepted (replies k) with
      | Some html => Some html
      | None => first_accepted replies ks'
      end
  end.

Fixpoint attempts_made (replies : nat -> reply) (ks : list nat) : nat :=
  match ks with
  | [] => O
  | k :: ks' =>
      match accepted (replies k) with
      | Some _ => 1%nat
      | None => S (attempts_made replies ks')
      end
  end.

(** ** [asyncio.gather]

    The children of a [gather] are run as tasks; each keeps what its
    coroutine returned or raised in its own future, and the futures are
    read in the order of the arguments once every child is done.  The
    children finish in the order of their finishing times.  A child has
    the events of its own task; the draws of the generator and the files
    are shared. *)

Definition not_after (finish : nat -> nat) : relation nat :=
  fun i j => (finish i <= finish j)%nat.

#[global] Instance not_after_dec finish : RelDecision (not_after finish) :=
  fun i j => decide (finish i <= finish j)%nat.

Definition completion_order (finish : nat -> nat) (n : nat) : list nat :=
  merge_sort (not_after finish) (seq 0 n).

(** The world as a new task finds it: it has done nothing yet. *)
Definition fresh (w : world) : world :=
  {| ua_draws := ua_draws w; trace := []; files := files w |}.

(** The events of a task started in [w]. *)
Definition script_of {A} (t : M A) (e : env) (w : world) : list item :=
  trace (t e (fresh w)).2.

Section Gather.
Context {A : Type}.

Definition run_task (t : M A) : M (outcome A * list event) :=
  fun e w =>
    let '(r, w') := t e (fresh w) in
    (Ok (r, events_of (trace w')),
     {| ua_draws := ua_draws w'; trace := trace w; files := files w' |}).

(** The callback of child [i]: its future is set. *)
Definition child_done (outcomes : list (outcome A))
    (futures : list (option (outcome A))) (i : nat) : list (option (outcome A)) :=
  match outcomes !! i with
  | Some r => <[i := Some r]> futures
  | None => futures
  end.

Definition futures_after (outcomes : list (outcome A)) (order : list nat)
    : list (option (outcome A)) :=
  foldl (child_done outcomes) (replicate (length outcomes) None) order.

(** [await asyncio.gather] over the tasks, with [return_exceptions=True] *)
Definition gather_return_exceptions (tasks : list (M A)) (finish : nat -> nat)
    : M (list (outcome A)) :=
  runs ← mapM run_task tasks;
  note runs.*2;;
  mret (omap id (futures_after runs.*1 (completion_order finish (length runs)))).

(** The children that are running again when a sibling raises go on to
    their end before the cancellation reaches them; what they return or
    raise is dropped. *)
Fixpoint run_on (tasks : list (M A)) : M unit :=
  match tasks with
  | [] => mret tt
  | t :: ts => fun e w => run_on ts e (t e w).2
  end.

(** The children in the order in which they finish.  The first that raises
    ends the [await] with its exception; [asyncio.run] then cancels the
    children that are still pending, except the next [grace] of them, which
    the event loop has already resumed.  What a cancelled child did before
    is not recorded. *)
Fixpoint until_raise (grace : nat) (tasks : list (M A)) : M (list A) :=
  match tasks with
  | [] => mret []
  | t :: ts =>
      fun e w =>
        match t e w with
        | (Ok a, w') =>
            match until_raise grace ts e w' with
            | (Ok l, w'') => (Ok (a :: l), w'')
            | (Raise x, w'') => (Raise x, w'')
            end
        | (Raise x, w') => (Raise x, (run_on (take grace ts) e w').2)
        end
  end.

(** [await asyncio.gather] over the tasks in [main], under [asyncio.run] *)
Definition gather (tasks : list (M A)) (finish : nat -> nat) (grace : nat) : M (list A) :=
  until_raise grace
    (omap (fun i => tasks !! i) (completion_order finish (length tasks))).
End Gather.

(** ** [EcosiaScraper.scrape_query] *)

Definition range (a b : Z) : list Z := seqZ a (b - a).

(** [enumerate(xs, start)] *)
Fixpoint enumerate {A} (xs : list A) (start : Z) : list (Z * A) :=
  match xs with
  | [] => []
  | x :: xs' => (start, x) :: enumerate xs' (start + 1)
  end.

Section Scraper.
Context `{PyLib}.

Definition search_url : str := py "https://www.ecosia.org/search?q=".

Definition url_of (query : str) (page_num : Z) : str :=
  if page_num =? 1
  then search_url ++ quote query
  else search_url ++ quote query ++ py "&p=" ++ str_of_Z (page_num - 1).

(** [if isinstance(html, Exception): html = None] *)
Definition content_of (html : outcome (option str)) : option str :=
  match html with
  | Raise _ => None
  | Ok h => h
  end.

(** The loop over [enumerate(html_pages, start=1)]: it ends at the first
    page on which [parse_page] raises. *)
Definition structure (query : str) (html_pages : list (outcome (option str)))
    : outcome (list PageResult) :=
  mapM (fun '(page_num, html) => parse_page (content_of html) query page_num)
       (enumerate html_pages 1).

(** The loop over [range(1, PAGES + 1)]. *)
Definition page_tasks (fetch : str -> M (option str)) (query : str)
    : list (M (option str)) :=
  (fun page_num => fetch (url_of query page_num)) <$> range 1 (PAGES + 1).

(** [scrape_query], for the [fetch_page] method of [self]. *)
Definition scrape_query_with (fetch : str -> M (option str))
    (finish : nat -> nat) (query : str) : M document :=
  html_pages ← gather_return_exceptions (page_tasks fetch query) finish;
  structured_data ← lift (structure query html_pages);
  mret {[ query := structured_data ]}.

Definition scrape_query : (nat -> nat) -> str -> M document :=
  scrape_query_with fetch_page.
End Scraper.

(** What the tasks of a [gather] come to, each with its events, and the
    world they leave. *)
Fixpoint run_all {A} (tasks : list (M A)) (e : env) (w : world)
    : list (outcome A * list event) * world :=
  match tasks with
  | [] => ([], w)
  | t :: ts =>
      let '(r, w1) := t e (fresh w) in
      let '(rs, w2) :=
        run_all ts e {| ua_draws := ua_draws w1; trace := trace w; files := files w1 |} in
      ((r, events_of (trace w1)) :: rs, w2)
  end.

(** What the fetch of each page of a query comes to. *)
Definition page_outcomes `{PyLib} (fetch : str -> M (option str)) (query : str)
    (e : env) (w : world) : list (outcome (option str)) :=
  (run_all (page_tasks fetch query) e w).1.*1.



(** A body on which [parse_page] raises, whatever the keyword and the page
    number. *)
Definition parse_raises `{PyLib} (html : str) : bool :=
  match parse_page (Some html) [] 0 with
  | Ok _ => false
  | Raise _ => true
  end.

(** A network all of whose bodies of status 200 are parsed without an
    exception. *)
Definition readable `{PyLib} (e : env) : Prop :=
  forall url ua k html, http_get e url ua k = Response 200 html -> parse_raises html = false.

(** ** [ResultSaver.save_to_json], [process_query] and [main] *)

Section Batch.
Context `{PyLib}.

(** [open(filename, 'w')] raises when the file cannot be created; once the
    file is open it is empty, and an exception of [json.dump] leaves what
    was written so far. *)
Definition save_to_json (data : document) (filename : str) : M unit :=
  fun e w =>
    match sink e filename with
    | OpenFails => (Raise OSError, w)
    | WriteFails =>
        (Raise OSError,
         {| ua_draws := ua_draws w;
            trace := trace w ++ [Ev (EvWrite filename)];
            files := <[filename := Partial]> (files w) |})
    | Written =>
        (Ok tt,
         {| ua_draws := ua_draws w;
            trace := trace w ++ [Ev (EvWrite filename)];
            files := <[filename := Complete data]> (files w) |})
    end.

Definition process_query_with (fetch : str -> M (option str))
    (finish : nat -> nat) (query : str) : M unit :=
  async_with QuerySem
    (data ← scrape_query_with fetch finish query;
     save_to_json data (filename_of query)).

Definition process_query : (nat -> nat) -> str -> M unit :=
  process_query_with fetch_page.

(** When the queries and the pages of each query finish, and how many of
    the queries that finish after a failure are running again before the
    cancellation. *)
Record schedule := {
  query_finish : nat -> nat;
  page_finish : nat -> nat -> nat;
  grace : nat;
}.

(** [tasks = [process_query(query) for query in queries]] *)
Definition main_tasks (fetch : str -> M (option str)) (s : schedule)
    (queries : list str) : list (M unit) :=
  imap (fun i query => process_query_with fetch (page_finish s i) query) queries.

Definition main_with (fetch : str -> M (option str)) (s : schedule)
    (queries : list str) : M (list unit) :=
  gather (main_tasks fetch s queries) (query_finish s) (grace s).

Definition main : schedule -> list str -> M (list unit) := main_with fetch_page.

(** The events of the tasks of [main], task [i] started in [starts i]. *)
Definition main_scripts (s : schedule) (queries : list str) (e : env)
    (starts : nat -> world) : list (list item) :=
  imap (fun i t => script_of t e (starts i)) (main_tasks fetch_page s queries).
End Batch.

Definition initial_world : world :=
  {| ua_draws := 0; trace := []; files := ∅ |}.

#[global] Instance limiter_eq_dec : EqDecision limiter.
Proof. solve_decision. Defined.

#[global] Instance event_eq_dec : EqDecision event.
Proof. solve_decision. Defined.

(** ** The specification's words

    Definitions that follow the wording of the specification rather than
    the source; Part II compares them with the program. *)

Section SpecWords.
Context `{PyLib}.

(** "retain alphanumerics, spaces, underscores; replace spaces with
    underscores": an alphanumeric character and an underscore stay, a
    space stays as an underscore, every other character goes. *)
Inductive sanitized : str -> str -> Prop :=
| sanitized_nil : sanitized [] []
| sanitized_alnum c q r :
    isalnum c = true -> sanitized q r -> sanitized (c :: q) (c :: r)
| sanitized_space q r :
    sanitized q r -> sanitized (32%N :: q) (95%N :: r)
| sanitized_underscore q r :
    sanitized q r -> sanitized (95%N :: q) (95%N :: r)
| sanitized_other c q r :
    isalnum c = false -> c <> 32%N -> c <> 95%N ->
    sanitized q r -> sanitized (c :: q) r.

(** "their alphanumeric+space content" *)
Definition alnum_space_content (query : str) : str :=
  List.filter (fun c => isalnum c || (c =? 32)%N) query.

(** "disallowed punctuation": a character that is not retained, that is,
    neither alphanumeric nor a space nor an underscore. *)
Definition disallowed (c : N) : Prop :=
  isalnum c = false /\ c <> 32%N /\ c <> 95%N.

(** "two queries differing only by disallowed punctuation": what the two
    queries hold besides their alphanumeric and space content is
    disallowed punctuation. *)
Definition only_disallowed_punctuation (query : str) : Prop :=
  Forall (fun c => isalnum c = true \/ c = 32%N \/ disallowed c) query.

Definition differ_only_by_disallowed_punctuation (q1 q2 : str) : Prop :=
  only_disallowed_punctuation q1 /\ only_disallowed_punctuation q2.
End SpecWords.

(** "a freshly randomized client identity header per attempt": the
    attempts of a run carry successive draws of the generator. *)
Definition fresh_identity_per_attempt (e : env) (w w' : world) : Prop :=
  let sent := snd <$> requests (new_events w w') in
  sent = ua_random e <$> seq (ua_draws w) (length sent)
  /\ ua_draws w' = (ua_draws w + length sent)%nat.

(** ** Stubs

    A library whose tables hold nothing above ASCII, whose parser knows two
    documents and whose [urlparse] rejects the address with an open
    bracket; a generator with distinct identities; networks that always
    fail, succeed at the last attempt, or always answer with one of the two
    documents; and a file system that refuses one name. *)

Definition sponsored_html : str :=
  py "<div>provided by Google <a href='http://x.com'>x</a></div>".

Definition sponsored_soup : list node :=
  [Tag (py "div") []
     [NavigableString (py "provided by Google ");
      Tag (py "a") [(py "href", py "http://x.com")] [NavigableString (py "x")]]].

Definition bracket_html : str :=
  py "<div><a href='http://['>x</a></div>".

Definition bracket_soup : list node :=
  [Tag (py "div") []
     [Tag (py "a") [(py "href", py "http://[")] [NavigableString (py "x")]]].

Definition stub_lib : PyLib := {|
  isalnum_tab := fun _ => false;
  isspace_tab := fun _ => false;
  lower_tab := fun c => [c];
  quote := fun q => q;
  netloc := fun u => if decide (u = py "http://[") then Raise ValueError else Ok (drop 7 u);
  BeautifulSoup := fun h =>
    if decide (h = sponsored_html) then Ok sponsored_soup
    else if decide (h = bracket_html) then Ok bracket_soup
    else Ok [];
|}.

Definition numbered_agents (n : nat) : str := py "UA" ++ py (NilZero.string_of_uint (Nat.to_uint n)).

Definition failing_env : env := {|
  ua_random := numbered_agents;
  http_get := fun _ _ attempt => if Nat.even attempt then Response 503 [] else Fails TimeoutError;
  sink := fun _ => Written;
|}.

Definition last_chance_env : env := {|
  ua_random := numbered_agents;
  http_get := fun _ _ attempt =>
    if (attempt =? 2)%nat then Response 200 sponsored_html else Response 500 [];
  sink := fun _ => Written;
|}.

Definition readonly_env (name : str) : env := {|
  ua_random := numbered_agents;
  http_get := fun _ _ _ => Response 200 sponsored_html;
  sink := fun f => if decide (f = name) then OpenFails else Written;
|}.

Definition bracket_env : env := {|
  ua_random := numbered_agents;
  http_get := fun _ _ _ => Response 200 bracket_html;
  sink := fun _ => Written;
|}.


Definition in_order : schedule := {|
  query_finish := fun i => i;
  page_finish := fun _ p => (4 - p)%nat;
  grace := 0;
|}.

(** ** What a run leaves in the trace

    The events of a call of [fetch_page] and of the calls of a
    [scrape_query], as lists, and scans of a trace for the scopes of the
    connector and of the limiters. *)

(** The events of one attempt. *)
Definition attempt_events (url headers : str) : list event :=
  [EvOpen; EvAcquire PageSem; EvRequest url headers; EvRelease PageSem; EvClose].

(** The events of the attempts [ks] of the loop of [fetch_page]. *)
Fixpoint loop_events (replies : nat -> reply) (url headers : str) (ks : list nat)
    : list event :=
  match ks with
  | [] => []
  | k :: ks' =>
      attempt_events url headers
      ++ match accepted (replies k) with
         | Some _ => []
         | None =>
             (if (k <? RETRIES - 1)%nat then [EvSleep 2] else [])
             ++ loop_events replies url headers ks'
         end
  end.

(** [n] times the same events, two seconds of sleep between one time and
    the next. *)
Fixpoint backed_off (n : nat) (attempt : list event) : list event :=
  match n with
  | O => []
  | S O => attempt
  | S n' => attempt ++ [EvSleep 2] ++ backed_off n' attempt
  end.

(** The events and the outcome of the call of [fetch_page] that makes the
    draw number [draw] of the generator. *)
Definition fetch_events (e : env) (url : str) (draw : nat) : list event :=
  loop_events (http_get e url (ua_random e draw)) url (ua_random e draw) (seq 0 RETRIES).

Definition fetch_outcome (e : env) (url : str) (draw : nat) : option str :=
  first_accepted (http_get e url (ua_random e draw)) (seq 0 RETRIES).

(** The events of the calls of [fetch_page] on [urls], call by call, from
    draw number [draw] on. *)
Fixpoint fetch_scripts (e : env) (urls : list str) (draw : nat) : list (list event) :=
  match urls with
  | [] => []
  | url :: urls' => fetch_events e url draw :: fetch_scripts e urls' (S draw)
  end.

Definition fetch_all_events (e : env) (urls : list str) (draw : nat) : list event :=
  concat (fetch_scripts e urls draw).

Fixpoint fetch_all_outcomes (e : env) (urls : list str) (draw : nat)
    : list (outcome (option str)) :=
  match urls with
  | [] => []
  | url :: urls' => Ok (fetch_outcome e url draw) :: fetch_all_outcomes e urls' (S draw)
  end.

(** The addresses of the pages of a query. *)
Definition page_urls `{PyLib} (query : str) : list str :=
  url_of query <$> range 1 (PAGES + 1).

(** The children of the [gather] of [scrape_query], and the world after
    it. *)
Definition after_fetches `{PyLib} (fetch : str -> M (option str)) (query : str)
    (e : env) (w : world) : world :=
  record [Tasks (run_all (page_tasks fetch query) e w).1.*2]
         (run_all (page_tasks fetch query) e w).2.

(** What [scrape_query] returns or raises for the query whose first fetch
    makes the draw number [draw]. *)
Definition scrape_outcome `{PyLib} (e : env) (query : str) (draw : nat) : outcome document :=
  (fun pages => {[ query := pages ]})
    <$> structure query (fetch_all_outcomes e (page_urls query) draw).

(** What [save_to_json] leaves in the trace of [process_query]: the file
    is written to once it is open. *)
Definition save_events `{PyLib} (e : env) (query : str) (draw : nat) : list event :=
  match scrape_outcome e query draw, sink e (filename_of query) with
  | Raise _, _ | _, OpenFails => []
  | Ok _, _ => [EvWrite (filename_of query)]
  end.

(** What [process_query] returns or raises. *)
Definition process_outcome `{PyLib} (e : env) (query : str) (draw : nat) : outcome unit :=
  match scrape_outcome e query draw, sink e (filename_of query) with
  | Raise x, _ => Raise x
  | Ok _, Written => Ok tt
  | Ok _, _ => Raise OSError
  end.

(** The file that [process_query] leaves at the name of the query. *)
Definition process_file `{PyLib} (e : env) (query : str) (draw : nat) : option file :=
  match scrape_outcome e query draw, sink e (filename_of query) with
  | Ok data, Written => Some (Complete data)
  | Ok _, WriteFails => Some Partial
  | _, _ => None
  end.

(** The seconds of the sleeps in a trace. *)
Definition sleeps (tr : list event) : list Z :=
  omap (fun ev => match ev with
                  | EvSleep seconds => Some seconds
                  | _ => None
                  end) tr.

(** Requests and writes are the work that a scope protects. *)
Definition is_work (ev : event) : bool :=
  match ev with
  | EvRequest _ _ | EvWrite _ => true
  | _ => false
  end.

(** The scan of a trace for a scope that [acq] opens and [rel] closes: the
    number of open scopes at the end, from [held] at the start; [None] when
    a scope is closed that is not open, or a guarded event happens outside
    every scope. *)
Fixpoint scoped (acq rel : event) (guarded : event -> bool) (tr : list event)
    (held : nat) : option nat :=
  match tr with
  | [] => Some held
  | ev :: tr' =>
      if decide (ev = acq) then scoped acq rel guarded tr' (S held)
      else if decide (ev = rel) then
        match held with
        | O => None
        | S h => scoped acq rel guarded tr' h
        end
      else if guarded ev && (held =? 0)%nat then None
      else scoped acq rel guarded tr' held
  end.

(** A text that does not begin with white space. *)
Definition clean_start `{PyLib} (s : str) : Prop :=
  match s with
  | [] => True
  | c :: _ => isspace c = false
  end.

(** What every record of [parse_page] has, for the keyword [kw]. *)
Definition well_formed `{PyLib} (kw : str) (r : ResultRecord) : Prop :=
  startswith (link r) (py "http") = true
  /\ title r <> []
  /\ strip (title r) = title r
  /\ strip (description r) = description r
  /\ keyword r = kw
  /\ (app (py "https://www.google.com/s2/favicons?domain=")) <$> netloc (link r)
     = Ok (favicon_path r).

(** ** The event loop

    The event loop runs one task at a time up to its next [await].  A
    task is what it has done and what it still has to do; the children of
    a [gather] run, one event at a time and in any order, while the task
    that awaits them stands at the [gather], and the task goes on when all
    of them are done.  [async with] on a semaphore whose value is 0 waits;
    its exit gives the slot back. *)

Module Loop.

Record child := {
  cdone : list event;
  ctodo : list event;
}.

Inductive step_item :=
| Single (ev : event)
| Group (children : list child).

Record thread := {
  tdone : list event;
  ttodo : list step_item;
}.

(** [sem] and [query_sem] hold the values of the two semaphores. *)
Record state := {
  sem : nat;
  query_sem : nat;
  threads : list thread;
}.

Definition load (it : item) : step_item :=
  match it with
  | Ev ev => Single ev
  | Tasks children => Group ((fun c => {| cdone := []; ctodo := c |}) <$> children)
  end.

Definition start (scripts : list (list item)) : state :=
  {| sem := slots PageSem;
     query_sem := slots QuerySem;
     threads := (fun script => {| tdone := []; ttodo := load <$> script |}) <$> scripts |}.

(** [Semaphore.acquire] and [Semaphore.release] on the pair of values *)
Definition acquire (l : limiter) (values : nat * nat) : option (nat * nat) :=
  match l, values with
  | PageSem, (S s, q) => Some (s, q)
  | QuerySem, (s, S q) => Some (s, q)
  | _, _ => None
  end.

Definition release (l : limiter) (values : nat * nat) : nat * nat :=
  match l with
  | PageSem => (S values.1, values.2)
  | QuerySem => (values.1, S values.2)
  end.

(** What an event asks of the semaphores: [None] when the task has to
    wait. *)
Definition fire (ev : event) (values : nat * nat) : option (nat * nat) :=
  match ev with
  | EvAcquire l => acquire l values
  | EvRelease l => Some (release l values)
  | _ => Some values
  end.

Definition finished (c : child) : bool := bool_decide (ctodo c = []).

(** [Own q]: task [q] does its next event, or leaves the [gather] whose
    children are all done.  [Child q p]: child [p] of the [gather] at which
    task [q] stands does its next event. *)
Inductive action :=
| Own (q : nat)
| Child (q p : nat).

Definition step (a : action) (st : state) : option state :=
  match a with
  | Own q =>
      th ← threads st !! q;
      match ttodo th with
      | [] => None
      | Single ev :: rest =>
          values ← fire ev (sem st, query_sem st);
          Some {| sem := values.1;
                  query_sem := values.2;
                  threads := <[q := {| tdone := tdone th ++ [ev]; ttodo := rest |}]>
                               (threads st) |}
      | Group children :: rest =>
          if forallb finished children
          then Some {| sem := sem st;
                       query_sem := query_sem st;
                       threads := <[q := {| tdone := tdone th; ttodo := rest |}]>
                                    (threads st) |}
          else None
      end
  | Child q p =>
      th ← threads st !! q;
      match ttodo th with
      | Group children :: rest =>
          c ← children !! p;
          match ctodo c with
          | [] => None
          | ev :: crest =>
              values ← fire ev (sem st, query_sem st);
              Some {| sem := values.1;
                      query_sem := values.2;
                      threads :=
                        <[q := {| tdone := tdone th;
                                  ttodo :=
                                    Group (<[p := {| cdone := cdone c ++ [ev];
                                                     ctodo := crest |}]> children)
                                    :: rest |}]> (threads st) |}
          end
      | _ => None
      end
  end.

(** A run of the loop; an action that is not possible is passed over. *)
Definition run (actions : list action) (st : state) : state :=
  foldl (fun st a => default st (step a st)) st actions.

(** The children of the [gather] at which a task stands. *)
Definition crew (th : thread) : list child :=
  match ttodo th with
  | Group children :: _ => children
  | _ => []
  end.

(** A fetch is in flight from its request to what it does next. *)
Definition in_flight_child (c : child) : bool :=
  match last (cdone c) with
  | Some (EvRequest _ _) => true
  | _ => false
  end.

Definition in_flight (st : state) : nat :=
  sum_list ((fun th => length (List.filter in_flight_child (crew th))) <$> threads st).

(** A query is being processed from the first thing its task does, or from
    the start of its fetches, to the last thing its task does. *)
Definition is_active (th : thread) : bool :=
  match ttodo th with
  | [] => false
  | Group _ :: _ => true
  | Single _ :: _ => negb (bool_decide (tdone th = []))
  end.

Definition active (st : state) : nat := length (List.filter is_active (threads st)).

(** Every task has done all it had to do. *)
Definition all_done (st : state) : bool :=
  forallb (fun th => bool_decide (ttodo th = [])) (threads st).

(** The slots of [l] that a task holds after the events [evs]. *)
Definition after (l : limiter) (held : nat) (ev : event) : nat :=
  if decide (ev = EvAcquire l) then S held
  else if decide (ev = EvRelease l) then pred held
  else held.

Definition holding (l : limiter) (evs : list event) : nat := foldl (after l) 0%nat evs.

(** The events of a task's own, and the children of its [gather]s. *)
Definition singles (todo : list step_item) : list event :=
  omap (fun it => match it with Single ev => Some ev | Group _ => None end) todo.

Definition kids (todo : list step_item) : list child :=
  flat_map (fun it => match it with Single _ => [] | Group children => children end) todo.

Definition touches (l : limiter) (ev : event) : bool :=
  bool_decide (ev = EvAcquire l) || bool_decide (ev = EvRelease l).

(** From [held] slots of [l] on, the task holds a slot wherever it is being
    processed. *)
Fixpoint covered (l : limiter) (todo : list step_item) (held : nat) (begun : bool) : bool :=
  match todo with
  | [] => true
  | Single ev :: rest =>
      (negb begun || (1 <=? held)%nat) && covered l rest (after l held ev) true
  | Group _ :: rest => (1 <=? held)%nat && covered l rest held begun
  end.

(** From [held] slots of [l] on, the task asks for a slot only when it
    holds none. *)
Fixpoint patient (l : limiter) (todo : list event) (held : nat) : bool :=
  match todo with
  | [] => true
  | ev :: rest =>
      (negb (bool_decide (ev = EvAcquire l)) || (held =? 0)%nat)
      && patient l rest (after l held ev)
  end.

(** A fetch keeps to the page semaphore: what it still has to do sends
    every request inside a slot, gives every slot back, and leaves the
    query semaphore alone. *)
Definition child_ok (c : child) : Prop :=
  scoped (EvAcquire PageSem) (EvRelease PageSem) is_work (ctodo c)
    (holding PageSem (cdone c)) = Some 0%nat
  /\ patient PageSem (ctodo c) (holding PageSem (cdone c)) = true
  /\ (in_flight_child c = true -> (1 <= holding PageSem (cdone c))%nat)
  /\ Forall (fun ev => touches QuerySem ev = false) (ctodo c).

(** A query keeps to the query semaphore, and its fetches to theirs. *)
Definition thread_ok (th : thread) : Prop :=
  scoped (EvAcquire QuerySem) (EvRelease QuerySem) (fun _ => false) (singles (ttodo th))
    (holding QuerySem (tdone th)) = Some 0%nat
  /\ patient QuerySem (singles (ttodo th)) (holding QuerySem (tdone th)) = true
  /\ covered QuerySem (ttodo th) (holding QuerySem (tdone th))
       (negb (bool_decide (tdone th = []))) = true
  /\ Forall (fun ev => touches PageSem ev = false) (singles (ttodo th))
  /\ Forall child_ok (kids (ttodo th))
  /\ Forall (fun c => cdone c = []) (kids (tail (ttodo th))).

Definition page_held (th : thread) : nat :=
  sum_list ((fun c => holding PageSem (cdone c)) <$> kids (ttodo th)).

(** Each semaphore holds the slots that the tasks do not. *)
Definition balanced (st : state) : Prop :=
  (query_sem st + sum_list ((fun th => holding QuerySem (tdone th)) <$> threads st)
   = slots QuerySem)%nat
  /\ (sem st + sum_list (page_held <$> threads st) = slots PageSem)%nat
  /\ Forall thread_ok (threads st).

(** A fetch whose next event asks for no slot, a fetch that has something
    left to do, a task that stands at a [gather], and a task whose next
    event asks for no slot. *)
Definition ready_child (c : child) : bool :=
  match ctodo c with
  | ev :: _ => negb (bool_decide (ev = EvAcquire PageSem))
  | [] => false
  end.

Definition busy_child (c : child) : bool := negb (finished c).

Definition at_gather (th : thread) : bool :=
  match ttodo th with
  | Group _ :: _ => true
  | _ => false
  end.

Definition ready (th : thread) : bool :=
  match ttodo th with
  | Single ev :: _ => negb (bool_decide (ev = EvAcquire QuerySem))
  | _ => false
  end.

(** What the tasks still have to do: the events of each task and of its
    fetches, and the [gather]s to leave. *)
Definition work_of (th : thread) : nat :=
  (length (ttodo th) + sum_list ((fun c => length (ctodo c)) <$> kids (ttodo th)))%nat.

Definition work (st : state) : nat := sum_list (work_of <$> threads st).

(** The actions of a run that were possible. *)
Fixpoint steps_taken (actions : list action) (st : state) : nat :=
  match actions with
  | [] => 0
  | a :: rest =>
      match step a st with
      | Some st' => S (steps_taken rest st')
      | None => steps_taken rest st
      end
  end.

End Loop.

(** The bounds are reached, and then a fourth query and an eleventh fetch
    have to wait: four queries on a network that answers at once, three of
    them inside [async with query_sem], the five fetches of the first two
    each with its request sent. *)
Definition full_house : list Loop.action :=
  [Loop.Own 0; Loop.Own 1; Loop.Own 2]
  ++ flat_map (fun q => flat_map (fun p => [Loop.Child q p; Loop.Child q p; Loop.Child q p]) (seq 0 5))
              [0; 1]%nat
  ++ [Loop.Child 2 0].

(* ===================================================================== *)
(** * Part II: properties                                                 *)
(* ===================================================================== *)

(** ** The destination identifier *)

Section SanitizeFacts.
Context `{PyLib}.

Lemma retained_space : retained space = true.
Proof. unfold retained. by rewrite N.eqb_refl, orb_true_r. Qed.

Lemma retained_underscore : retained underscore = true.
Proof. unfold retained. by rewrite N.eqb_refl, orb_true_r. Qed.

Lemma isalnum_space : isalnum space = false.
Proof. reflexivity. Qed.

Lemma isalnum_underscore : isalnum underscore = false.
Proof. reflexivity. Qed.

Lemma retained_alnum c : isalnum c = true -> retained c = true.
Proof. unfold retained. by intros ->. Qed.

Lemma retained_other c :
  isalnum c = false -> c <> space -> c <> underscore -> retained c = false.
Proof.
  unfold retained. intros -> Hs Hu.
  by destruct (N.eqb_spec c space), (N.eqb_spec c underscore).
Qed.

Lemma safe_query_cons c q :
  safe_query (c :: q) =
  if retained c
  then (if (c =? space)%N then underscore else c) :: safe_query q
  else safe_query q.
Proof. unfold safe_query; simpl. by destruct (retained c). Qed.

(** The identifier of the code is the one that the specification
    describes. *)
Lemma safe_query_sanitized q : sanitized q (safe_query q).
Proof.
  induction q as [|c q IH]; [constructor|].
  rewrite safe_query_cons.
  destruct (N.eqb_spec c space) as [->|Hs].
  { rewrite retained_space. by apply sanitized_space. }
  destruct (N.eqb_spec c underscore) as [->|Hu].
  { rewrite retained_underscore. by apply sanitized_underscore. }
  destruct (isalnum c) eqn:Hc.
  - rewrite retained_alnum by done. by apply sanitized_alnum.
  - rewrite retained_other by done. by apply sanitized_other.
Qed.

Lemma sanitized_functional q r : sanitized q r -> r = safe_query q.
Proof.
  induction 1 as [|c q r Hc _ IH|q r _ IH|q r _ IH|c q r Hc Hs Hu _ IH];
    rewrite ?safe_query_cons.
  - done.
  - rewrite retained_alnum by done.
    destruct (N.eqb_spec c space) as [->|_]; [by rewrite isalnum_space in Hc|].
    by rewrite IH.
  - change 32%N with space. by rewrite retained_space, N.eqb_refl, IH.
  - change 95%N with underscore. by rewrite retained_underscore, IH.
  - by rewrite retained_other.
Qed.

(** A query none of whose characters is retained has the empty identifier. *)
Lemma safe_query_unretained q :
  Forall (fun c => retained c = false) q -> safe_query q = [].
Proof.
  induction 1 as [|c q Hc _ IH]; [done|].
  by rewrite safe_query_cons, Hc.
Qed.

(** Without underscores the retained characters are the alphanumeric and
    space content, and the replacement of spaces loses nothing. *)
Lemma retained_without_underscore q :
  underscore ∉ q -> List.filter retained q = alnum_space_content q.
Proof.
  unfold alnum_space_content.
  induction q as [|c q IH]; [done|]. intros [Hc Hq]%not_elem_of_cons; simpl.
  rewrite IH by done. unfold retained. fold space.
  destruct (N.eqb_spec c underscore); [congruence|]. by rewrite orb_false_r.
Qed.

Lemma replace_space_injective (s t : str) :
  underscore ∉ s -> underscore ∉ t ->
  replace space underscore s = replace space underscore t -> s = t.
Proof.
  revert t. induction s as [|c s IH]; intros [|d t]; try done.
  intros [Hc Hs]%not_elem_of_cons [Hd Ht]%not_elem_of_cons.
  unfold replace; simpl. intros [= Hcd Hst].
  f_equal; [|by apply IH].
  destruct (N.eqb_spec c space), (N.eqb_spec d space); congruence.
Qed.

Lemma filter_without (f : N -> bool) (c : N) (q : str) :
  c ∉ q -> c ∉ List.filter f q.
Proof.
  intros Hq Hin. apply Hq.
  apply list_elem_of_In, filter_In in Hin as [Hin _]. by apply list_elem_of_In.
Qed.

Lemma content_of_safe_query q1 q2 :
  underscore ∉ q1 -> underscore ∉ q2 ->
  safe_query q1 = safe_query q2 ->
  alnum_space_content q1 = alnum_space_content q2.
Proof.
  intros H1 H2 Heq.
  rewrite <- !retained_without_underscore by done.
  apply replace_space_injective; [by apply filter_without..|done].
Qed.

(** A query whose punctuation is all disallowed holds no underscore. *)
Lemma no_underscore q : only_disallowed_punctuation q -> underscore ∉ q.
Proof.
  induction 1 as [|c q Hc _ IH]; [apply not_elem_of_nil|].
  apply not_elem_of_cons. split; [|done].
  intros <-. destruct Hc as [Hc|[Hc|(_ & _ & Hc)]]; try done.
Qed.

(** ... and its identifier is its alphanumeric and space content with the
    spaces replaced. *)
Lemma safe_query_content q :
  only_disallowed_punctuation q ->
  safe_query q = replace space underscore (alnum_space_content q).
Proof.
  intros Hq. unfold safe_query. by rewrite retained_without_underscore by by apply no_underscore.
Qed.
End SanitizeFacts.

(** C8. The identifier is the query with the characters that are not
    alphanumeric, space or underscore removed and every space turned into
    an underscore, and it is a function of the query alone, the same on
    every run; two queries that differ only by disallowed punctuation, that
    is, whose characters are alphanumeric, spaces or disallowed
    punctuation, have different identifiers if their alphanumeric and
    space content differs, and the same identifier if it is the same. *)
Theorem safe_query_spec `{PyLib} (q1 q2 : str) :
  (forall r, sanitized q1 r <-> r = safe_query q1)
  /\ (differ_only_by_disallowed_punctuation q1 q2 ->
      (alnum_space_content q1 <> alnum_space_content q2 ->
       safe_query q1 <> safe_query q2)
      /\ (alnum_space_content q1 = alnum_space_content q2 ->
          safe_query q1 = safe_query q2)).
Proof.
  split.
  - intros r. split; [apply sanitized_functional|].
    intros ->. apply safe_query_sanitized.
  - intros [H1 H2]. split.
    + intros Hne Heq. apply Hne.
      apply content_of_safe_query; [by apply no_underscore..|done].
    + intros Heq. rewrite !safe_query_content by done. by rewrite Heq.
Qed.

Lemma safe_query_spec_witness :
  @safe_query stub_lib (py "a,b") <> @safe_query stub_lib (py "a b").
Proof.
  apply (proj2 (@safe_query_spec stub_lib (py "a,b") (py "a b"))).
  - split.
    + change (py "a,b") with [97; 44; 98]%N.
      apply Forall_cons; split; [by left|].
      apply Forall_cons; split; [right; right; by repeat split|].
      apply Forall_cons; split; [by left|]. apply Forall_nil_2.
    + change (py "a b") with [97; 32; 98]%N.
      apply Forall_cons; split; [by left|].
      apply Forall_cons; split; [right; by left|].
      apply Forall_cons; split; [by left|]. apply Forall_nil_2.
  - intros Heq. vm_compute in Heq. discriminate Heq.
Defined.

(** ** [fetch_page] *)

Section FetcherFacts.

Lemma events_of_app items items' :
  events_of (items ++ items') = events_of items ++ events_of items'.
Proof. unfold events_of. by rewrite flat_map_app. Qed.

Lemma events_of_Ev evs : events_of (Ev <$> evs) = evs.
Proof. induction evs as [|ev evs IH]; [done|]. csimpl. by rewrite IH. Qed.

Lemma push_push w evs evs' : push (push w evs) evs' = push w (evs ++ evs').
Proof. unfold push, record; simpl. by rewrite fmap_app, <- app_assoc. Qed.

Lemma push_nil w : push w [] = w.
Proof. destruct w. unfold push, record; simpl. by rewrite app_nil_r. Qed.

Lemma new_events_push w evs : new_events w (push w evs) = evs.
Proof. unfold new_events, push; simpl. by rewrite drop_app_length, events_of_Ev. Qed.

Lemma requests_app tr tr' : requests (tr ++ tr') = requests tr ++ requests tr'.
Proof. apply omap_app. Qed.

(** One attempt: the connector is opened and closed, the request is sent
    between the acquisition and the release of the limiter, and an
    exception of the request stays inside. *)
Lemma attempt_once_run url headers attempt e w :
  attempt_once url headers attempt e w =
  (Ok (accepted (http_get e url headers attempt)), push w (attempt_events url headers)).
Proof.
  unfold attempt_once, async_with, finally, try_except, session_get, receive, emit,
    accepted, attempt_events, mbind, M_bind, mret, M_ret; simpl.
  destruct (http_get e url headers attempt) as [status text|x]; simpl.
  - destruct (status =? 200); simpl; by rewrite !push_push.
  - by rewrite !push_push.
Qed.

Lemma fetch_loop_events url headers e ks w :
  for_return ks (loop_body url headers) (mret None) e w
  = (Ok (first_accepted (http_get e url headers) ks),
     push w (loop_events (http_get e url headers) url headers ks)).
Proof.
  revert w. induction ks as [|k ks IH]; intros w; simpl.
  - by rewrite push_nil.
  - unfold mbind at 1, M_bind at 1, loop_body at 1, mbind at 1, M_bind at 1.
    rewrite attempt_once_run.
    destruct (accepted (http_get e url headers k)) as [html|] eqn:Hk.
    + done.
    + unfold mbind at 1, M_bind at 1. change (RETRIES - 1)%nat with 2%nat.
      destruct (k <? 2)%nat; simpl.
      * unfold emit, mbind, M_bind, mret, M_ret. rewrite IH, !push_push. done.
      * unfold mbind, M_bind, mret, M_ret. rewrite IH, !push_push. done.
Qed.

(** A call of [fetch_page]: what it returns, and its events. *)
Lemma fetch_page_events url e w :
  fetch_page url e w
  = (Ok (fetch_outcome e url (ua_draws w)),
     {| ua_draws := S (ua_draws w);
        trace := trace w ++ (Ev <$> fetch_events e url (ua_draws w));
        files := files w |}).
Proof.
  unfold fetch_page, mbind at 1, M_bind at 1, random_user_agent.
  by rewrite fetch_loop_events.
Qed.

Lemma new_events_fetch_page url e w :
  new_events w (fetch_page url e w).2 = fetch_events e url (ua_draws w).
Proof.
  rewrite fetch_page_events. unfold new_events; cbn [snd trace].
  by rewrite drop_app_length, events_of_Ev.
Qed.

Lemma requests_attempt url headers :
  requests (attempt_events url headers) = [(url, headers)].
Proof. done. Qed.

Lemma requests_loop_events replies url headers ks :
  requests (loop_events replies url headers ks)
  = replicate (attempts_made replies ks) (url, headers).
Proof.
  induction ks as [|k ks IH]; [done|]. cbn [loop_events attempts_made].
  rewrite requests_app, requests_attempt.
  destruct (accepted (replies k)); [done|].
  rewrite requests_app, IH. by destruct (k <? RETRIES - 1)%nat.
Qed.

Lemma fetch_page_run url e w :
  exists tr,
    fetch_page url e w
    = (Ok (first_accepted (http_get e url (ua_random e (ua_draws w))) (seq 0 RETRIES)),
       push {| ua_draws := S (ua_draws w); trace := trace w; files := files w |} tr)
    /\ requests tr
       = replicate (attempts_made (http_get e url (ua_random e (ua_draws w))) (seq 0 RETRIES))
                   (url, ua_random e (ua_draws w)).
Proof.
  exists (fetch_events e url (ua_draws w)). split.
  - by rewrite fetch_page_events.
  - apply requests_loop_events.
Qed.

Lemma accepted_Some r html : accepted r = Some html <-> r = Response 200 html.
Proof.
  destruct r as [status text|x]; simpl; [|done].
  destruct (Z.eqb_spec status 200) as [->|Hne]; split; intros [=]; by subst.
Qed.

Lemma accepted_None r : accepted r = None <-> attempt_fails r = true.
Proof.
  destruct r as [status text|x]; simpl; [|done].
  by destruct (status =? 200).
Qed.

Lemma first_accepted_seq replies a n html :
  first_accepted replies (seq a n) = Some html ->
  exists k, (a <= k < a + n)%nat /\ accepted (replies k) = Some html
            /\ forall j, (a <= j < k)%nat -> accepted (replies j) = None.
Proof.
  revert a. induction n as [|n IH]; intros a; simpl; [done|].
  destruct (accepted (replies a)) as [h|] eqn:Ha.
  - intros [= ->]. exists a. split; [lia|]. split; [done|]. intros j; lia.
  - intros (k & Hk & Hacc & Hbefore)%IH.
    exists k. split; [lia|]. split; [done|].
    intros j Hj. destruct (decide (j = a)) as [->|]; [done|]. apply Hbefore; lia.
Qed.

Lemma first_accepted_None replies ks :
  first_accepted replies ks = None <->
  forall k, k ∈ ks -> accepted (replies k) = None.
Proof.
  induction ks as [|k ks IH]; simpl.
  - split; [|done]. by intros _ k ?%not_elem_of_nil.
  - destruct (accepted (replies k)) eqn:Hk.
    + split; [done|]. intros Hall. rewrite Hall in Hk; [done|]. by left.
    + rewrite IH. split.
      * intros Hall j [->|Hj]%elem_of_cons; auto.
      * intros Hall j Hj. apply Hall. by right.
Qed.

Lemma attempts_made_all_fail replies ks :
  (forall k, k ∈ ks -> accepted (replies k) = None) ->
  attempts_made replies ks = length ks.
Proof.
  induction ks as [|k ks IH]; intros Hall; simpl; [done|].
  rewrite Hall by (by left). f_equal. apply IH. intros j Hj. apply Hall. by right.
Qed.


Lemma new_events_fetch w tr :
  new_events w (push {| ua_draws := S (ua_draws w); trace := trace w; files := files w |} tr)
  = tr.
Proof. unfold new_events, push; simpl. by rewrite drop_app_length, events_of_Ev. Qed.

Lemma sleeps_app tr tr' : sleeps (tr ++ tr') = sleeps tr ++ sleeps tr'.
Proof. apply omap_app. Qed.

Lemma attempts_made_bounds replies k ks :
  (1 <= attempts_made replies (k :: ks) <= length (k :: ks))%nat.
Proof.
  revert k. induction ks as [|k' ks IH]; intros k; simpl.
  - destruct (accepted (replies k)); lia.
  - specialize (IH k'). simpl in IH. destruct (accepted (replies k)); lia.
Qed.

(** The attempts made when attempt [a + k] is the first with a body. *)
Lemma attempts_made_first replies a n k :
  (k < n)%nat ->
  (forall j, (j < k)%nat -> accepted (replies (a + j)%nat) = None) ->
  is_Some (accepted (replies (a + k)%nat)) ->
  attempts_made replies (seq a n) = S k.
Proof.
  revert a k. induction n as [|n IH]; intros a k Hk Hbefore Hat; [lia|]. simpl.
  destruct k as [|k].
  - rewrite Nat.add_0_r in Hat. by destruct Hat as [html ->].
  - rewrite <- (Nat.add_0_r a) at 1. rewrite Hbefore by lia. f_equal.
    apply IH; [lia| |].
    + intros j Hj. replace (S a + j)%nat with (a + S j)%nat by lia.
      apply Hbefore. lia.
    + by replace (S a + k)%nat with (a + S k)%nat by lia.
Qed.

(** The sleeps of the loop when its last turn is attempt [RETRIES - 1]. *)
Lemma sleeps_loop_events replies url headers a n :
  (a + n = RETRIES)%nat ->
  sleeps (loop_events replies url headers (seq a n))
  = replicate (attempts_made replies (seq a n) - 1) 2.
Proof.
  revert a. induction n as [|n IH]; intros a Han; [done|].
  cbn [seq loop_events attempts_made]. rewrite sleeps_app.
  destruct (accepted (replies a)); [done|].
  rewrite sleeps_app, IH by lia. cbn [Nat.sub]. rewrite Nat.sub_0_r.
  destruct n as [|n].
  - replace (a <? RETRIES - 1)%nat with false; [done|].
    symmetry. apply Nat.ltb_ge. lia.
  - replace (a <? RETRIES - 1)%nat with true
      by (symmetry; apply Nat.ltb_lt; lia).
    pose proof (attempts_made_bounds replies (S a) (seq (S (S a)) n)) as Hb.
    change (S a :: seq (S (S a)) n) with (seq (S a) (S n)) in Hb.
    destruct (attempts_made replies (seq (S a) (S n))) as [|m]; [lia|].
    cbn [Nat.sub]. by rewrite Nat.sub_0_r.
Qed.

(** The events of the loop when its last turn is attempt [RETRIES - 1]:
    the attempts made, with a sleep between one and the next. *)
Lemma loop_events_backed_off replies url headers a n :
  (a + n = RETRIES)%nat ->
  loop_events replies url headers (seq a n)
  = backed_off (attempts_made replies (seq a n)) (attempt_events url headers).
Proof.
  revert a. induction n as [|n IH]; intros a Han; [done|].
  cbn [seq loop_events attempts_made].
  destruct (accepted (replies a)); [by rewrite app_nil_r|].
  rewrite IH by lia.
  destruct n as [|n].
  - replace (a <? RETRIES - 1)%nat with false
      by (symmetry; apply Nat.ltb_ge; lia).
    reflexivity.
  - replace (a <? RETRIES - 1)%nat with true
      by (symmetry; apply Nat.ltb_lt; lia).
    pose proof (attempts_made_bounds replies (S a) (seq (S (S a)) n)) as Hb.
    change (S a :: seq (S (S a)) n) with (seq (S a) (S n)) in Hb.
    destruct (attempts_made replies (seq (S a) (S n))) as [|m]; [lia|].
    reflexivity.
Qed.

Lemma scoped_app acq rel guarded tr tr' held held' :
  scoped acq rel guarded tr held = Some held' ->
  scoped acq rel guarded (tr ++ tr') held = scoped acq rel guarded tr' held'.
Proof.
  revert held. induction tr as [|ev tr IH]; intros held; simpl.
  - by intros [= ->].
  - repeat case_decide; try apply IH.
    + destruct held; [done|apply IH].
    + destruct (guarded ev && (held =? 0)%nat); [done|apply IH].
Qed.
End FetcherFacts.

(** C3. [fetch_page] never raises; it returns a body exactly when one of its
    [RETRIES] attempts receives a response with status 200, the body is that
    of the first such response, a success at the last attempt is used, and
    in every other case (other statuses, exceptions of the transport,
    timeouts) it returns [None]. *)
Theorem fetch_page_returns_first_200 (url : str) (e : env) (w : world) :
  let replies := http_get e url (ua_random e (ua_draws w)) in
  exists r w',
    fetch_page url e w = (Ok r, w') /\
    (is_Some r <-> exists k html, (k < RETRIES)%nat /\ replies k = Response 200 html) /\
    (forall html, r = Some html ->
       exists k, (k < RETRIES)%nat /\ replies k = Response 200 html
                 /\ forall j, (j < k)%nat -> attempt_fails (replies j) = true) /\
    (forall html,
       (forall j, (j < RETRIES - 1)%nat -> attempt_fails (replies j) = true) ->
       replies (RETRIES - 1)%nat = Response 200 html -> r = Some html).
Proof.
  intros replies. destruct (fetch_page_run url e w) as (tr & Hrun & _).
  fold replies in Hrun. set (r := first_accepted replies (seq 0 RETRIES)) in *.
  assert (Hfirst : forall html, r = Some html ->
            exists k, (k < RETRIES)%nat /\ replies k = Response 200 html
                      /\ forall j, (j < k)%nat -> attempt_fails (replies j) = true).
  { intros html (k & Hk & Hacc & Hbefore)%first_accepted_seq.
    exists k. split; [lia|]. split; [by apply accepted_Some|].
    intros j Hj. apply accepted_None, Hbefore. lia. }
  assert (Hnone : r = None ->
            forall k, (k < RETRIES)%nat -> accepted (replies k) = None).
  { intros Hr k Hk. eapply first_accepted_None; [exact Hr|].
    apply elem_of_seq. lia. }
  exists r, (push {| ua_draws := S (ua_draws w); trace := trace w; files := files w |} tr).
  split; [exact Hrun|]. split; [|split; [exact Hfirst|]].
  - split.
    + intros [html Hr]. destruct (Hfirst html Hr) as (k & Hk & Hrep & _). eauto.
    + intros (k & html & Hk & Hrep). destruct r as [h|] eqn:Hr; [by eexists|].
      specialize (Hnone eq_refl k Hk). apply accepted_Some in Hrep. congruence.
  - intros html Hfail Hlast. destruct r as [h|] eqn:Hr.
    + destruct (Hfirst h eq_refl) as (k & Hk & Hrep & _).
      destruct (decide (k = RETRIES - 1)%nat) as [->|Hne]; [congruence|].
      assert (Hk' : (k < RETRIES - 1)%nat) by lia.
      apply Hfail, accepted_None in Hk'. apply accepted_Some in Hrep. congruence.
    + assert (Hk : (RETRIES - 1 < RETRIES)%nat) by (unfold RETRIES; lia).
      apply Hnone in Hk; [|done]. apply accepted_Some in Hlast. congruence.
Qed.

Lemma fetch_page_returns_first_200_witness :
  fst (fetch_page (py "u") last_chance_env initial_world) = Ok (Some sponsored_html).
Proof.
  destruct (fetch_page_returns_first_200 (py "u") last_chance_env initial_world)
    as (r & w' & Hrun & _ & _ & Hlast).
  rewrite Hrun. simpl. f_equal. apply Hlast.
  - intros j Hj. unfold RETRIES in Hj.
    destruct j as [|[|j]]; [reflexivity|reflexivity|lia].
  - reflexivity.
Defined.

(** C4. When every attempt fails, on a status other than 200 or on an
    exception, [fetch_page] sends exactly [RETRIES] requests, all to the
    same address, and then returns [None]. *)
Theorem fetch_page_gives_up_after_RETRIES (url : str) (e : env) (w : world) :
  (forall k, (k < RETRIES)%nat ->
     attempt_fails (http_get e url (ua_random e (ua_draws w)) k) = true) ->
  exists w',
    fetch_page url e w = (Ok None, w') /\
    length (requests (new_events w w')) = RETRIES /\
    requests (new_events w w') = replicate RETRIES (url, ua_random e (ua_draws w)).
Proof.
  intros Hfail. destruct (fetch_page_run url e w) as (tr & Hrun & Htr).
  assert (Hall : forall k, k ∈ seq 0 RETRIES ->
            accepted (http_get e url (ua_random e (ua_draws w)) k) = None).
  { intros k Hk%elem_of_seq. apply accepted_None, Hfail. lia. }
  rewrite attempts_made_all_fail, length_seq in Htr by done.
  rewrite (proj2 (first_accepted_None _ _) Hall) in Hrun.
  eexists. split; [exact Hrun|].
  rewrite new_events_fetch, Htr. by rewrite length_replicate.
Qed.

Lemma fetch_page_gives_up_after_RETRIES_witness :
  exists w',
    fetch_page (py "u") failing_env initial_world = (Ok None, w') /\
    length (requests (new_events initial_world w')) = 3%nat.
Proof.
  destruct (fetch_page_gives_up_after_RETRIES (py "u") failing_env initial_world)
    as (w' & Hrun & Hlen & _).
  - intros k Hk. unfold RETRIES in Hk.
    destruct k as [|[|[|k]]]; [reflexivity|reflexivity|reflexivity|lia].
  - exists w'. split; [exact Hrun|exact Hlen].
Defined.

(** C6, as the code has it. A call of [fetch_page] draws one User-Agent,
    before its first attempt, and every request of the call carries it; the
    next call draws the next one. *)
Theorem fetch_page_draws_one_identity (url : str) (e : env) (w : world) :
  let w' := snd (fetch_page url e w) in
  ua_draws w' = S (ua_draws w) /\
  Forall (fun rq => rq = (url, ua_random e (ua_draws w))) (requests (new_events w w')).
Proof.
  destruct (fetch_page_run url e w) as (tr & Hrun & Htr).
  rewrite Hrun; simpl. split; [done|].
  rewrite new_events_fetch, Htr. apply Forall_replicate. done.
Qed.

(** C6, as the specification words it, fails: three failing attempts carry
    the first identity of the generator three times. *)
Lemma identity_not_fresh_per_attempt :
  ~ (forall url e w, fresh_identity_per_attempt e w (snd (fetch_page url e w))).
Proof.
  intros Hfresh.
  destruct (Hfresh (py "u") failing_env initial_world) as [Hsent _].
  vm_compute in Hsent. discriminate Hsent.
Qed.

(** ** [asyncio.gather] and [scrape_query] *)

Section GatherFacts.
Context {A : Type}.

Lemma run_all_length (tasks : list (M A)) e w :
  length (run_all tasks e w).1 = length tasks.
Proof.
  revert w. induction tasks as [|t ts IH]; intros w; simpl; [done|].
  destruct (t e (fresh w)) as [r w1].
  specialize (IH {| ua_draws := ua_draws w1; trace := trace w; files := files w1 |}).
  destruct (run_all ts e _) as [rs w2]. simpl in *. by rewrite IH.
Qed.

Lemma run_all_trace (tasks : list (M A)) e w :
  trace (run_all tasks e w).2 = trace w.
Proof.
  revert w. induction tasks as [|t ts IH]; intros w; simpl; [done|].
  destruct (t e (fresh w)) as [r w1].
  specialize (IH {| ua_draws := ua_draws w1; trace := trace w; files := files w1 |}).
  by destruct (run_all ts e _) as [rs w2].
Qed.

Lemma mapM_run_task (tasks : list (M A)) e w :
  mapM run_task tasks e w = (Ok (run_all tasks e w).1, (run_all tasks e w).2).
Proof.
  revert w. induction tasks as [|t ts IH]; intros w; simpl; [done|].
  unfold mbind at 1, M_bind at 1, run_task at 1.
  destruct (t e (fresh w)) as [r w1]. unfold mbind at 1, M_bind at 1. rewrite IH.
  by destruct (run_all ts e _) as [rs w2].
Qed.

(** The futures after the callbacks of the children in [order]. *)
Lemma child_done_lookup (outcomes : list (outcome A)) order futures i :
  length futures = length outcomes ->
  foldl (child_done outcomes) futures order !! i =
  if decide (i ∈ order) then Some <$> outcomes !! i else futures !! i.
Proof.
  revert futures. induction order as [|j order IH]; intros futures Hlen; simpl.
  - destruct (decide (i ∈ [])) as [Hin|]; [by apply not_elem_of_nil in Hin|done].
  - assert (Hstep : length (child_done outcomes futures j) = length outcomes
                    /\ child_done outcomes futures j !! i
                       = if decide (i = j) then Some <$> outcomes !! i else futures !! i).
    { unfold child_done. destruct (outcomes !! j) as [r|] eqn:Hj.
      - split; [by rewrite length_insert|].
        destruct (decide (i = j)) as [->|Hne].
        + rewrite Hj. apply list_lookup_insert_eq.
          rewrite Hlen. by eapply lookup_lt_Some.
        + by apply list_lookup_insert_ne.
      - split; [done|]. destruct (decide (i = j)) as [->|Hne]; [|done].
        rewrite Hj. apply lookup_ge_None. rewrite Hlen. by apply lookup_ge_None. }
    destruct Hstep as [Hlen' Hi]. rewrite IH by done. rewrite Hi.
    destruct (decide (i ∈ order)) as [Hin|Hnin], (decide (i ∈ j :: order)) as [Hin'|Hnin'];
      try done.
    + exfalso. apply Hnin'. by right.
    + apply elem_of_cons in Hin' as [->|Hin']; [|done]. by rewrite decide_True.
    + destruct (decide (i = j)) as [->|Hne]; [|done]. exfalso. apply Hnin'. by left.
Qed.

(** Whatever the order in which the children finish, every future is set
    and holds the outcome of its own child. *)
Lemma futures_after_completion (outcomes : list (outcome A)) finish :
  futures_after outcomes (completion_order finish (length outcomes))
  = Some <$> outcomes.
Proof.
  apply list_eq; intros i. unfold futures_after, completion_order.
  rewrite child_done_lookup by apply length_replicate.
  rewrite list_lookup_fmap.
  case_decide as Hin; [done|].
  rewrite merge_sort_Permutation, elem_of_seq in Hin.
  rewrite (proj2 (lookup_ge_None outcomes i)) by lia.
  apply lookup_ge_None. rewrite length_replicate. lia.
Qed.

Lemma omap_id_Some (l : list (outcome A)) : omap id (Some <$> l) = l.
Proof. induction l as [|x l IH]; [done|]. csimpl. by f_equal. Qed.

(** [gather] with [return_exceptions=True] never raises: it returns what
    each child returned or raised, in the order of the arguments, and the
    children enter the trace together. *)
Lemma gather_return_exceptions_run (tasks : list (M A)) finish e w :
  gather_return_exceptions tasks finish e w
  = (Ok (run_all tasks e w).1.*1,
     record [Tasks (run_all tasks e w).1.*2] (run_all tasks e w).2).
Proof.
  unfold gather_return_exceptions, mbind, M_bind. rewrite mapM_run_task.
  unfold note, mret, M_ret.
  rewrite <- (length_fmap fst (run_all tasks e w).1).
  by rewrite futures_after_completion, omap_id_Some.
Qed.

End GatherFacts.

Section ScraperFacts.
Context `{PyLib}.

Lemma enumerate_lookup {A} (xs : list A) (start : Z) (i : nat) :
  enumerate xs start !! i = (fun x => (start + Z.of_nat i, x)) <$> xs !! i.
Proof.
  revert start i. induction xs as [|x xs IH]; intros start [|i]; simpl; try done.
  - by rewrite Z.add_0_r.
  - rewrite IH. destruct (xs !! i); simpl; [|done]. do 2 f_equal. lia.
Qed.

Lemma enumerate_length {A} (xs : list A) (start : Z) :
  length (enumerate xs start) = length xs.
Proof. revert start. induction xs as [|x xs IH]; intros start; simpl; by rewrite ?IH. Qed.

(** A loop that may raise: it returns when every turn returns, and raises
    what its first raising turn raises. *)
Lemma mapM_cons {A B} (f : A -> outcome B) x l :
  mapM f (x :: l) =
  match f x with
  | Ok y => match mapM f l with
            | Ok ys => Ok (y :: ys)
            | Raise e => Raise e
            end
  | Raise e => Raise e
  end.
Proof.
  simpl. unfold mbind, outcome_bind, mret, outcome_ret.
  destruct (f x); [|done]. by destruct (mapM f l).
Qed.

Lemma mapM_Ok {A B} (f : A -> outcome B) l ys :
  mapM f l = Ok ys <-> Forall2 (fun x y => f x = Ok y) l ys.
Proof.
  revert ys. induction l as [|x l IH]; intros ys.
  - simpl. split.
    + intros [= <-]. constructor.
    + by intros ->%Forall2_nil_inv_l.
  - rewrite mapM_cons. split.
    + destruct (f x) as [y|] eqn:Hx; [|done].
      destruct (mapM f l) as [ys'|] eqn:Hl; [|done].
      intros [= <-]. constructor; [done|]. by apply IH.
    + intros (y & ys' & Hx & Hl & ->)%Forall2_cons_inv_l.
      rewrite Hx. apply IH in Hl. by rewrite Hl.
Qed.

Lemma mapM_total {A B} (f : A -> outcome B) l :
  Forall (fun x => exists y, f x = Ok y) l -> exists ys, mapM f l = Ok ys.
Proof.
  induction 1 as [|x l [y Hx] _ [ys IH]]; [by exists []|].
  exists (y :: ys). by rewrite mapM_cons, Hx, IH.
Qed.

Lemma structure_Ok query html_pages ps :
  structure query html_pages = Ok ps ->
  length ps = length html_pages
  /\ forall i r, html_pages !! i = Some r ->
       exists p, ps !! i = Some p
                 /\ parse_page (content_of r) query (1 + Z.of_nat i) = Ok p.
Proof.
  unfold structure. intros Hps%mapM_Ok. split.
  - apply Forall2_length in Hps. by rewrite enumerate_length in Hps.
  - intros i r Hi.
    assert (Hen : enumerate html_pages 1 !! i = Some (1 + Z.of_nat i, r))
      by (by rewrite enumerate_lookup, Hi).
    destruct (Forall2_lookup_l _ _ _ _ _ Hps Hen) as (p & Hp & Hparse).
    by exists p.
Qed.

Lemma structure_total query html_pages :
  (forall i r, html_pages !! i = Some r ->
     exists p, parse_page (content_of r) query (1 + Z.of_nat i) = Ok p) ->
  exists ps, structure query html_pages = Ok ps.
Proof.
  intros Hall. apply mapM_total, Forall_lookup. intros i [n r] Hi.
  rewrite enumerate_lookup in Hi.
  destruct (html_pages !! i) as [r'|] eqn:Hr; simplify_eq/=. by apply Hall.
Qed.

Lemma parse_page_page html kw page_num p :
  parse_page html kw page_num = Ok p -> page p = page_num.
Proof.
  destruct html as [h|]; simpl; [|by intros [= <-]].
  unfold mbind, outcome_bind. destruct (BeautifulSoup h); [|done].
  destruct (mapM _ _); [|done]. by intros [= <-].
Qed.


(** Whether [parse_page] raises depends on the body alone. *)
Lemma parse_result_keyword kw kw' container :
  match parse_result kw container with
  | Ok _ => exists r, parse_result kw' container = Ok r
  | Raise x => parse_result kw' container = Raise x
  end.
Proof.
  unfold parse_result. destruct (find_sponsored container); [by eexists|].
  destruct (find_link container) as [[href link_text]|]; [|by eexists].
  destruct (negb _); [by eexists|].
  unfold mbind, outcome_bind. destruct (netloc href); [by eexists|done].
Qed.

Lemma parse_page_readable html kw page_num :
  parse_raises html = false -> exists p, parse_page (Some html) kw page_num = Ok p.
Proof.
  unfold parse_raises, parse_page.
  destruct (BeautifulSoup html) as [soup|]; cbn [mbind outcome_bind]; [|done].
  destruct (mapM (parse_result []) (select soup)) as [rs|] eqn:Hrs;
    cbn [mbind outcome_bind]; [|done].
  intros _. apply mapM_Ok in Hrs.
  destruct (mapM_total (parse_result kw) (select soup)) as [rs' ->]; [|by eexists].
  apply Forall_lookup. intros i c Hc.
  destruct (Forall2_lookup_l _ _ _ _ _ Hrs Hc) as (r & _ & Hr).
  pose proof (parse_result_keyword [] kw c) as Hkw. by rewrite Hr in Hkw.
Qed.

Lemma parse_page_content r kw page_num :
  (forall html, r = Ok (Some html) -> parse_raises html = false) ->
  exists p, parse_page (content_of r) kw page_num = Ok p.
Proof.
  destruct r as [[html|]|x]; intros Hr; simpl.
  - by apply parse_page_readable, Hr.
  - by eexists.
  - by eexists.
Qed.

Lemma structure_pages query html_pages ps :
  structure query html_pages = Ok ps ->
  page <$> ps = seqZ 1 (Z.of_nat (length html_pages)).
Proof.
  intros [Hlen Hps]%structure_Ok.
  apply list_eq; intros i. rewrite list_lookup_fmap.
  destruct (html_pages !! i) as [r|] eqn:Hi.
  - destruct (Hps i r Hi) as (p & -> & Hp); simpl.
    rewrite (parse_page_page _ _ _ _ Hp). symmetry. apply lookup_seqZ.
    apply lookup_lt_Some in Hi. split; lia.
  - apply lookup_ge_None in Hi.
    rewrite (proj2 (lookup_ge_None ps i)) by lia.
    symmetry. apply lookup_seqZ_ge. lia.
Qed.


Lemma page_tasks_length fetch query :
  length (page_tasks fetch query) = Z.to_nat PAGES.
Proof. unfold page_tasks, range. by rewrite length_fmap, length_seqZ. Qed.

Lemma page_outcomes_length fetch query e w :
  length (page_outcomes fetch query e w) = Z.to_nat PAGES.
Proof. unfold page_outcomes. by rewrite length_fmap, run_all_length, page_tasks_length. Qed.

(** [scrape_query] waits for every page, then returns the document of the
    pages or raises what [parse_page] raises, whenever the fetches
    finish. *)
Lemma scrape_query_with_run fetch finish query e w :
  scrape_query_with fetch finish query e w
  = ((fun ps => {[ query := ps ]}) <$> structure query (page_outcomes fetch query e w),
     after_fetches fetch query e w).
Proof.
  unfold scrape_query_with, mbind, M_bind.
  rewrite gather_return_exceptions_run. fold (page_outcomes fetch query e w).
  fold (after_fetches fetch query e w). unfold lift.
  by destruct (structure query (page_outcomes fetch query e w)).
Qed.

Lemma page_tasks_fetch_page query :
  page_tasks fetch_page query = fetch_page <$> page_urls query.
Proof. unfold page_tasks, page_urls. by rewrite <- list_fmap_compose. Qed.

Lemma page_urls_length query : length (page_urls query) = Z.to_nat PAGES.
Proof. unfold page_urls, range. by rewrite length_fmap, length_seqZ. Qed.

(** The calls of [fetch_page] on [urls]: what they return, their events,
    and the world that they leave. *)
Lemma run_all_fetch (urls : list str) e w :
  (run_all (fetch_page <$> urls) e w).1.*1 = fetch_all_outcomes e urls (ua_draws w)
  /\ (run_all (fetch_page <$> urls) e w).1.*2 = fetch_scripts e urls (ua_draws w)
  /\ (run_all (fetch_page <$> urls) e w).2
     = {| ua_draws := (ua_draws w + length urls)%nat;
          trace := trace w;
          files := files w |}.
Proof.
  revert w. induction urls as [|url urls IH]; intros w.
  - destruct w; simpl. by rewrite Nat.add_0_r.
  - rewrite fmap_cons. cbn [run_all]. rewrite fetch_page_events.
    cbn [ua_draws trace files fresh].
    specialize (IH {| ua_draws := S (ua_draws w); trace := trace w; files := files w |}).
    destruct (run_all (fetch_page <$> urls) e _) as [rs w2].
    simpl in IH. destruct IH as (Ho & Hs & ->).
    cbn [fst snd fmap list_fmap]. rewrite Ho, Hs.
    cbn [fst snd trace app fetch_all_outcomes fetch_scripts length].
    rewrite events_of_Ev. repeat split. f_equal. lia.
Qed.

Lemma page_outcomes_fetch_page query e w :
  page_outcomes fetch_page query e w = fetch_all_outcomes e (page_urls query) (ua_draws w).
Proof.
  unfold page_outcomes. rewrite page_tasks_fetch_page. apply run_all_fetch.
Qed.

Lemma after_fetches_fetch_page query e w :
  after_fetches fetch_page query e w
  = {| ua_draws := (ua_draws w + Z.to_nat PAGES)%nat;
       trace := trace w ++ [Tasks (fetch_scripts e (page_urls query) (ua_draws w))];
       files := files w |}.
Proof.
  unfold after_fetches. rewrite page_tasks_fetch_page.
  destruct (run_all_fetch (page_urls query) e w) as (_ & -> & ->).
  by rewrite page_urls_length.
Qed.

Lemma scrape_query_run finish query e w :
  scrape_query finish query e w
  = (scrape_outcome e query (ua_draws w),
     {| ua_draws := (ua_draws w + Z.to_nat PAGES)%nat;
        trace := trace w ++ [Tasks (fetch_scripts e (page_urls query) (ua_draws w))];
        files := files w |}).
Proof.
  unfold scrape_query. rewrite scrape_query_with_run.
  by rewrite page_outcomes_fetch_page, after_fetches_fetch_page.
Qed.

Lemma fetch_all_outcomes_lookup e urls draw i :
  fetch_all_outcomes e urls draw !! i
  = (fun url => Ok (fetch_outcome e url (draw + i))) <$> urls !! i.
Proof.
  revert draw i. induction urls as [|url urls IH]; intros draw [|i]; simpl; try done.
  - by rewrite Nat.add_0_r.
  - rewrite IH. by replace (S draw + i)%nat with (draw + S i)%nat by lia.
Qed.

Lemma page_urls_first query : page_urls query !! 0%nat = Some (url_of query 1).
Proof. done. Qed.
End ScraperFacts.

(** C1 fails on the code.  When the first page of a query comes back with
    a result whose link [urlparse] rejects, such as 'http://[', the
    [ValueError] of line 89 leaves [parse_page] and, nothing catching it at
    line 119, [scrape_query]: no document is returned, although every
    fetch succeeded. *)
Theorem unparsable_link_ends_scrape_query `{PyLib} (finish : nat -> nat)
    (query html : str) (e : env) (w : world) :
  BeautifulSoup html = Ok bracket_soup ->
  netloc (py "http://[") = Raise ValueError ->
  http_get e (url_of query 1) (ua_random e (ua_draws w)) 0 = Response 200 html ->
  exists w', scrape_query finish query e w = (Raise ValueError, w').
Proof.
  intros Hsoup Hloc Hget. rewrite scrape_query_run. eexists. f_equal.
  unfold scrape_outcome, structure.
  assert (Hpages : exists rest,
            fetch_all_outcomes e (page_urls query) (ua_draws w) = Ok (Some html) :: rest).
  { change (page_urls query) with (url_of query 1 :: (url_of query <$> range 2 (PAGES + 1))).
    eexists. cbn [fetch_all_outcomes]. do 2 f_equal.
    unfold fetch_outcome. change (seq 0 RETRIES) with (0 :: seq 1 2)%nat.
    cbn [first_accepted]. by rewrite Hget. }
  destruct Hpages as [rest ->]. cbn [enumerate]. rewrite mapM_cons.
  cbn [content_of]. unfold parse_page, mbind, outcome_bind. rewrite Hsoup.
  change (select bracket_soup) with bracket_soup.
  unfold bracket_soup. rewrite mapM_cons.
  replace (parse_result query _) with (@Raise (option ResultRecord) ValueError); [done|].
  unfold parse_result, mbind, outcome_bind.
  change (find_sponsored _) with false. cbn match.
  change (find_link _) with (Some (py "http://[", py "x")). cbn match.
  change (negb _) with false. cbn match. by rewrite Hloc.
Qed.

Lemma unparsable_link_ends_scrape_query_witness :
  (@scrape_query stub_lib (fun i => i) (py "cats") bracket_env initial_world).1
  = Raise ValueError.
Proof.
  destruct (@unparsable_link_ends_scrape_query stub_lib (fun i => i) (py "cats")
              bracket_html bracket_env initial_world) as [w' ->].
  - reflexivity.
  - reflexivity.
  - reflexivity.
  - reflexivity.
Defined.



(** ** [parse_page] *)

Section ParserFacts.
Context `{PyLib}.

Lemma startswith_elem (s p : str) c : startswith s p = true -> c ∈ p -> c ∈ s.
Proof.
  revert s. induction p as [|a p IH]; intros [|b s]; simpl; try done.
  - by intros _ ?%not_elem_of_nil.
  - intros [Hab Hrest]%andb_prop [->|Hc]%elem_of_cons.
    + apply N.eqb_eq in Hab as ->. by left.
    + right. by apply IH.
Qed.

Lemma contains_elem (p s : str) c : contains p s = true -> c ∈ p -> c ∈ s.
Proof.
  induction s as [|b s IH]; simpl.
  - rewrite orb_false_r. intros Hp Hc.
    apply (startswith_elem [] p); [by destruct p|done].
  - intros [Hpre|Hrest]%orb_prop Hc.
    + by eapply startswith_elem.
    + right. by apply IH.
Qed.

(** No capital letter of ASCII survives [lower]. *)
Lemma lower_no_capital (t : str) (c : N) :
  between 65 90 c = true ->
  (forall d, c ∉ lower_tab d) ->
  c ∉ lower t.
Proof.
  intros Hcap Htab. unfold lower. induction t as [|d t IH]; simpl.
  - apply not_elem_of_nil.
  - intros [Hd|Ht]%elem_of_app; [|done].
    unfold lower_char in Hd. destruct (d <? 128)%N; [|by eapply Htab].
    apply list_elem_of_singleton in Hd.
    destruct (between 65 90 d) eqn:Hcapd; subst c.
    + unfold between in *. apply andb_prop in Hcap as [_ Hhi].
      apply andb_prop in Hcapd as [Hlo _].
      apply N.leb_le in Hhi, Hlo. lia.
    + congruence.
Qed.

(** The test of line 73 compares a lower-cased text with a marker that has
    a capital letter: it never holds, and no container is skipped as
    sponsored. *)
Lemma find_sponsored_never (container : node) :
  (forall d, 71%N ∉ lower_tab d) -> find_sponsored container = false.
Proof.
  intros Htab. unfold find_sponsored.
  apply not_true_is_false. intros (t & _ & Ht)%existsb_exists.
  unfold sponsored_text in Ht. apply andb_prop in Ht as [_ Ht].
  eapply (lower_no_capital t 71); [done|done|].
  eapply contains_elem; [exact Ht|].
  apply list_elem_of_In. vm_compute. tauto.
Qed.
End ParserFacts.

(** C5 fails on the code. A container whose text holds the marker
    'provided by Google' and which has an absolute link is parsed into a
    record, with the favicon of the domain that [urlparse] gives for the
    link. *)
Theorem sponsored_container_is_emitted `{PyLib} (html kw : str) (page_num : Z) :
  BeautifulSoup html = Ok sponsored_soup ->
  Exists (fun container =>
            contains (py "provided by Google") (text_of container) = true)
         (select sponsored_soup)
  /\ parse_page (Some html) kw page_num =
     (fun domain =>
        {| page := page_num;
           results :=
             [ {| title := py "x";
                  link := py "http://x.com";
                  description := [];
                  favicon_path := py "https://www.google.com/s2/favicons?domain=" ++ domain;
                  keyword := kw |} ] |})
       <$> netloc (py "http://x.com").
Proof.
  intros Hsoup. split.
  - left. reflexivity.
  - unfold parse_page. rewrite Hsoup. cbn [mbind outcome_bind].
    change (select sponsored_soup) with sponsored_soup. unfold sponsored_soup.
    rewrite mapM_cons.
    assert (Hdiv : parse_result kw
              (Tag (py "div") []
                 [NavigableString (py "provided by Google ");
                  Tag (py "a") [(py "href", py "http://x.com")] [NavigableString (py "x")]])
            = (fun domain =>
                 Some {| title := py "x";
                         link := py "http://x.com";
                         description := [];
                         favicon_path :=
                           py "https://www.google.com/s2/favicons?domain=" ++ domain;
                         keyword := kw |})
                <$> netloc (py "http://x.com")).
    { unfold parse_result.
      change (find_sponsored _) with false. cbn match.
      change (find_link _) with (Some (py "http://x.com", py "x")). cbn match.
      change (negb _) with false. cbn match.
      change (find_description _) with (@None str).
      change (strip (py "x")) with (py "x").
      by destruct (netloc (py "http://x.com")). }
    rewrite Hdiv. by destruct (netloc (py "http://x.com")).
Qed.

Lemma sponsored_container_is_emitted_witness :
  @parse_page stub_lib (Some sponsored_html) (py "cats") 1
  = Ok {| page := 1;
          results :=
            [ {| title := py "x";
                 link := py "http://x.com";
                 description := [];
                 favicon_path := py "https://www.google.com/s2/favicons?domain=x.com";
                 keyword := py "cats" |} ] |}.
Proof.
  destruct (@sponsored_container_is_emitted stub_lib sponsored_html (py "cats") 1) as [_ ->].
  - reflexivity.
  - reflexivity.
Defined.

(** ** [process_query] and [main] *)

Section BatchFacts.
Context `{PyLib}.

Lemma async_with_run {A} l (body : M A) e w :
  async_with l body e w =
  ((body e (push w [EvAcquire l])).1, push (body e (push w [EvAcquire l])).2 [EvRelease l]).
Proof.
  unfold async_with, finally, emit, mbind, M_bind.
  by destruct (body e (push w [EvAcquire l])).
Qed.

(** A call of [process_query]: what it returns or raises, its events, and
    the file that it leaves.  The slot of the query semaphore is taken
    first and given back last, whatever happens in between. *)
Lemma process_query_run finish query e w :
  process_query finish query e w
  = (process_outcome e query (ua_draws w),
     {| ua_draws := (ua_draws w + Z.to_nat PAGES)%nat;
        trace := trace w
                 ++ [Ev (EvAcquire QuerySem);
                     Tasks (fetch_scripts e (page_urls query) (ua_draws w))]
                 ++ (Ev <$> save_events e query (ua_draws w))
                 ++ [Ev (EvRelease QuerySem)];
        files := match process_file e query (ua_draws w) with
                 | Some f => <[filename_of query := f]> (files w)
                 | None => files w
                 end |}).
Proof.
  unfold process_query, process_query_with. rewrite async_with_run.
  unfold mbind, M_bind. fold (scrape_query finish query). rewrite scrape_query_run.
  unfold process_outcome, save_events, process_file, save_to_json, push, record.
  cbn [ua_draws trace files fst snd].
  destruct (scrape_outcome e query (ua_draws w)) as [data|x].
  - destruct (sink e (filename_of query)); cbn [ua_draws trace files fst snd];
      f_equal; f_equal; by rewrite <- ?app_assoc.
  - cbn [ua_draws trace files fst snd]. f_equal. f_equal. by rewrite <- ?app_assoc.
Qed.

(** On a readable network [scrape_query] returns a document of [PAGES]
    pages. *)
Lemma fetch_outcome_readable e url draw html :
  readable e -> fetch_outcome e url draw = Some html -> parse_raises html = false.
Proof.
  intros He (k & _ & Hk%accepted_Some & _)%first_accepted_seq. by eapply He.
Qed.

Lemma scrape_outcome_readable e query draw :
  readable e ->
  exists ps, scrape_outcome e query draw = Ok {[ query := ps ]}
             /\ length ps = Z.to_nat PAGES.
Proof.
  intros He. unfold scrape_outcome.
  destruct (structure_total query (fetch_all_outcomes e (page_urls query) draw))
    as [ps Hps].
  { intros i r Hi. apply parse_page_content. intros html ->.
    rewrite fetch_all_outcomes_lookup in Hi.
    destruct (page_urls query !! i) as [url|]; simplify_eq/=.
    by eapply fetch_outcome_readable. }
  exists ps. rewrite Hps. split; [done|].
  apply structure_Ok in Hps as [-> _].
  rewrite <- page_outcomes_fetch_page with (w := {| ua_draws := draw; trace := []; files := ∅ |}).
  apply page_outcomes_length.
Qed.

Lemma process_query_saved finish query e w :
  sink e (filename_of query) = Written ->
  readable e ->
  exists ps w',
    process_query finish query e w = (Ok tt, w')
    /\ length ps = Z.to_nat PAGES
    /\ files w' = <[filename_of query := Complete {[ query := ps ]}]> (files w).
Proof.
  intros Hw He. rewrite process_query_run.
  destruct (scrape_outcome_readable e query (ua_draws w) He) as (ps & Hps & Hlen).
  unfold process_outcome, process_file. rewrite Hps, Hw. by eexists _, _.
Qed.

Lemma process_query_refused finish query e w :
  sink e (filename_of query) = OpenFails ->
  exists x w',
    process_query finish query e w = (Raise x, w')
    /\ files w' = files w
    /\ (readable e -> x = OSError).
Proof.
  intros Hw. rewrite process_query_run.
  unfold process_outcome, process_file. rewrite Hw.
  destruct (scrape_outcome e query (ua_draws w)) as [data|x] eqn:Hs.
  - by eexists _, _.
  - eexists _, _. split; [done|]. split; [done|]. intros He.
    destruct (scrape_outcome_readable e query (ua_draws w) He) as (ps & Hps & _).
    congruence.
Qed.

(** [process_query] never leaves without having raised or written. *)
Lemma process_query_raises_or_writes finish query e w :
  (process_query finish query e w).1 = Ok tt ->
  exists data, files (process_query finish query e w).2 !! filename_of query
               = Some (Complete data).
Proof.
  rewrite process_query_run. cbn [fst snd files].
  unfold process_outcome, process_file.
  destruct (scrape_outcome e query (ua_draws w)) as [data|x]; [|done].
  destruct (sink e (filename_of query)); try done.
  intros _. exists data. apply lookup_insert_eq.
Qed.
End BatchFacts.

(** C7 fails on the code. When the sink refuses the document of the query
    that finishes first, and the other query is still waiting for its
    pages, [main] ends with the exception, [OSError] where the pages could
    be parsed, and the document of the other query is never written;
    however far the other query has come, [main] ends with an
    exception. *)
Theorem sink_failure_ends_the_batch `{PyLib} (q1 q2 : str) (pages : nat -> nat -> nat)
    (e : env) (w : world) :
  sink e (filename_of q1) = OpenFails ->
  (exists x w',
     main {| query_finish := fun i => i; page_finish := pages; grace := 0 |} [q1; q2] e w
     = (Raise x, w')
     /\ files w' = files w
     /\ (readable e -> x = OSError))
  /\ forall g,
       exists x w',
         main {| query_finish := fun i => i; page_finish := pages; grace := g |} [q1; q2] e w
         = (Raise x, w').
Proof.
  intros Hw.
  destruct (process_query_refused (pages 0%nat) q1 e w Hw) as (x & w' & Hrun & Hfiles & Hx).
  unfold process_query in Hrun. split.
  - exists x, w'. split; [|done].
    unfold main, main_with, gather. simpl. by rewrite Hrun.
  - intros g. unfold main, main_with, gather. simpl. rewrite Hrun. by eexists _, _.
Qed.

Lemma sink_failure_ends_the_batch_witness :
  exists w',
    @main stub_lib in_order [py "a"; py "b"] (readonly_env (py "a.json")) initial_world
    = (Raise OSError, w')
    /\ files w' !! py "b.json" = None.
Proof.
  destruct (@sink_failure_ends_the_batch stub_lib (py "a") (py "b") (page_finish in_order)
              (readonly_env (py "a.json")) initial_world)
    as [(x & w' & Hrun & Hfiles & Hx) _].
  - reflexivity.
  - exists w'. rewrite Hx in Hrun.
    + split; [exact Hrun|]. rewrite Hfiles. reflexivity.
    + intros url ua k html [= <-]. reflexivity.
Defined.

(** C10. A query without any retained character has the empty identifier
    and is written to '.json'; of two such queries processed one after the
    other, only the document of the second is left there. *)
Theorem unretained_queries_share_a_file `{PyLib} (q1 q2 : str) (f1 f2 : nat -> nat)
    (e : env) (w : world) :
  Forall (fun c => retained c = false) q1 ->
  Forall (fun c => retained c = false) q2 ->
  safe_query q1 = [] /\ filename_of q1 = py ".json" /\ filename_of q2 = py ".json"
  /\ (sink e (py ".json") = Written ->
      readable e ->
      exists ps1 ps2 w1 w2,
        process_query f1 q1 e w = (Ok tt, w1)
        /\ files w1 = <[py ".json" := Complete {[ q1 := ps1 ]}]> (files w)
        /\ process_query f2 q2 e w1 = (Ok tt, w2)
        /\ files w2 = <[py ".json" := Complete {[ q2 := ps2 ]}]> (files w)).
Proof.
  intros H1 H2.
  assert (Hf1 : filename_of q1 = py ".json")
    by (unfold filename_of; by rewrite safe_query_unretained).
  assert (Hf2 : filename_of q2 = py ".json")
    by (unfold filename_of; by rewrite safe_query_unretained).
  split; [by apply safe_query_unretained|]. split; [done|]. split; [done|].
  intros Hw He.
  destruct (process_query_saved f1 q1 e w) as (ps1 & w1 & Hrun1 & _ & Hfiles1);
    [by rewrite Hf1|done|].
  destruct (process_query_saved f2 q2 e w1) as (ps2 & w2 & Hrun2 & _ & Hfiles2);
    [by rewrite Hf2|done|].
  exists ps1, ps2, w1, w2. rewrite Hf1 in Hfiles1. rewrite Hf2 in Hfiles2.
  repeat split; try done.
  rewrite Hfiles2, Hfiles1. apply insert_insert_eq.
Qed.

Lemma unretained_queries_share_a_file_witness :
  @filename_of stub_lib (py "???") = py ".json"
  /\ @filename_of stub_lib (py "!!") = py ".json"
  /\ exists w1 w2,
       @process_query stub_lib (fun i => i) (py "???") failing_env initial_world = (Ok tt, w1)
       /\ @process_query stub_lib (fun i => i) (py "!!") failing_env w1 = (Ok tt, w2)
       /\ exists ps, files w2 = {[ py ".json" := Complete {[ py "!!" := ps ]} ]}.
Proof.
  destruct (@unretained_queries_share_a_file stub_lib (py "???") (py "!!")
              (fun i => i) (fun i => i) failing_env initial_world)
    as (_ & Hf1 & Hf2 & Hruns).
  - repeat constructor.
  - repeat constructor.
  - split; [exact Hf1|]. split; [exact Hf2|].
    destruct Hruns as (ps1 & ps2 & w1 & w2 & Hrun1 & _ & Hrun2 & Hfiles).
    + reflexivity.
    + intros url ua k html Hget. simpl in Hget. by destruct (Nat.even k).
    + exists w1, w2. split; [exact Hrun1|]. split; [exact Hrun2|].
      exists ps2. rewrite Hfiles. reflexivity.
Defined.

(** ** The two semaphores *)

Module LoopFacts.
Import Loop.

Lemma weight_insert {A} (f : A -> nat) (l : list A) (i : nat) (x y : A) :
  l !! i = Some y ->
  (sum_list (f <$> <[i:=x]> l) + f y = sum_list (f <$> l) + f x)%nat.
Proof.
  revert i. induction l as [|z l IH]; intros [|i]; csimpl; try done.
  - intros [= ->]. lia.
  - intros Hi. specialize (IH i Hi). lia.
Qed.

Lemma count_le_weight {A} (p : A -> bool) (f : A -> nat) (l : list A) :
  Forall (fun x => p x = true -> (1 <= f x)%nat) l ->
  (length (List.filter p l) <= sum_list (f <$> l))%nat.
Proof.
  induction 1 as [|x l Hx _ IH]; csimpl; [done|].
  destruct (p x); simpl; [specialize (Hx eq_refl)|]; lia.
Qed.

Lemma weight_zero {A} (f : A -> nat) (l : list A) :
  Forall (fun x => f x = 0%nat) l -> sum_list (f <$> l) = 0%nat.
Proof. induction 1 as [|x l Hx _ IH]; csimpl; [done|]. lia. Qed.

Lemma weight_app {A} (f : A -> nat) (l l' : list A) :
  sum_list (f <$> l ++ l') = (sum_list (f <$> l) + sum_list (f <$> l'))%nat.
Proof. by rewrite fmap_app, sum_list_with_app. Qed.

Lemma holding_snoc l evs ev : holding l (evs ++ [ev]) = after l (holding l evs) ev.
Proof. unfold holding. by rewrite foldl_app. Qed.

(** One step of the scan. *)
Lemma scoped_step l guarded ev rest held k :
  scoped (EvAcquire l) (EvRelease l) guarded (ev :: rest) held = Some k ->
  scoped (EvAcquire l) (EvRelease l) guarded rest (after l held ev) = Some k
  /\ (ev = EvRelease l -> (1 <= held)%nat)
  /\ (guarded ev = true -> ev <> EvAcquire l -> (1 <= held)%nat).
Proof.
  simpl. unfold after. destruct (decide (ev = EvAcquire l)) as [->|Hacq].
  - intros Hk. split; [done|]. split; [done|]. by intros _ [].
  - destruct (decide (ev = EvRelease l)) as [->|Hrel].
    + destruct held as [|h]; [done|]. intros Hk. simpl. repeat split; lia || done.
    + destruct (guarded ev) eqn:Hg; simpl.
      * destruct held as [|h]; [done|]. intros Hk. repeat split; lia || done.
      * intros Hk. by repeat split.
Qed.

Lemma patient_step l ev rest held :
  patient l (ev :: rest) held = true ->
  patient l rest (after l held ev) = true
  /\ (ev = EvAcquire l -> held = 0%nat).
Proof.
  simpl. intros [Hev Hrest]%andb_prop. split; [done|]. intros ->.
  rewrite bool_decide_eq_true_2 in Hev by done. simpl in Hev. by apply Nat.eqb_eq.
Qed.

(** What an event does to the values of the semaphores, and to the slots
    that the task holds. *)
Lemma fire_page ev s q v held :
  touches QuerySem ev = false ->
  fire ev (s, q) = Some v ->
  (ev = EvRelease PageSem -> (1 <= held)%nat) ->
  v.2 = q /\ (v.1 + after PageSem held ev = s + held)%nat.
Proof.
  unfold after.
  destruct ev as [|[]| |[]| | |]; simpl; try done;
    try (intros _ [= <-] _; simpl; split; [done|lia]).
  - destruct s; [done|]. intros _ [= <-] _. simpl. split; [done|lia].
  - intros _ [= <-] Hheld. specialize (Hheld eq_refl).
    simpl. split; [done|lia].
Qed.

Lemma fire_query ev s q v held :
  touches PageSem ev = false ->
  fire ev (s, q) = Some v ->
  (ev = EvRelease QuerySem -> (1 <= held)%nat) ->
  v.1 = s /\ (v.2 + after QuerySem held ev = q + held)%nat.
Proof.
  unfold after.
  destruct ev as [|[]| |[]| | |]; simpl; try done;
    try (intros _ [= <-] _; simpl; split; [done|lia]).
  - destruct q; [done|]. intros _ [= <-] _. simpl. split; [done|lia].
  - intros _ [= <-] Hheld. specialize (Hheld eq_refl).
    simpl. split; [done|lia].
Qed.

(** An event has to wait only for a slot of a semaphore whose value is 0. *)
Lemma fire_waits ev s q :
  fire ev (s, q) = None ->
  (ev = EvAcquire PageSem /\ s = 0%nat) \/ (ev = EvAcquire QuerySem /\ q = 0%nat).
Proof.
  destruct ev as [|[]| |[]| | |]; simpl; try done.
  - destruct s; [by left|done].
  - destruct q; [by right|done].
Qed.

Lemma kids_tail (P : child -> Prop) (todo : list step_item) :
  Forall P (kids todo) -> Forall P (kids (tail todo)).
Proof.
  destruct todo as [|[ev|cs] rest]; simpl; [done|done|].
  by intros [_ ?]%Forall_app.
Qed.

Lemma finished_holds_nothing c :
  child_ok c -> finished c = true -> holding PageSem (cdone c) = 0%nat.
Proof.
  intros (Hsc & _) Hfin. unfold finished in Hfin.
  apply bool_decide_eq_true in Hfin. rewrite Hfin in Hsc. simpl in Hsc. congruence.
Qed.

(** A task does its next event. *)
Lemma thread_ok_single th ev rest :
  ttodo th = Single ev :: rest ->
  thread_ok th ->
  thread_ok {| tdone := tdone th ++ [ev]; ttodo := rest |}
  /\ touches PageSem ev = false
  /\ (ev = EvRelease QuerySem -> (1 <= holding QuerySem (tdone th))%nat)
  /\ page_held {| tdone := tdone th ++ [ev]; ttodo := rest |} = page_held th.
Proof.
  intros Htodo (Hsc & Hpa & Hcov & Hto & Hkids & Hfr). rewrite Htodo in *.
  csimpl in *.
  apply scoped_step in Hsc as (Hsc & Hrel & _).
  apply patient_step in Hpa as [Hpa _].
  apply andb_prop in Hcov as [_ Hcov].
  apply Forall_cons in Hto as [Hev Hto].
  split; [|by unfold page_held; rewrite Htodo].
  unfold thread_ok. cbn [tdone ttodo]. rewrite holding_snoc.
  split; [done|]. split; [done|]. split.
  { rewrite bool_decide_eq_false_2; [done|]. by destruct (tdone th). }
  split; [done|]. split; [done|]. by apply kids_tail.
Qed.

(** A task leaves a [gather] whose children are done. *)
Lemma thread_ok_group th children rest :
  ttodo th = Group children :: rest ->
  forallb finished children = true ->
  thread_ok th ->
  thread_ok {| tdone := tdone th; ttodo := rest |}
  /\ page_held {| tdone := tdone th; ttodo := rest |} = page_held th.
Proof.
  intros Htodo Hfin (Hsc & Hpa & Hcov & Hto & Hkids & Hfr). rewrite Htodo in *.
  csimpl in *.
  apply andb_prop in Hcov as [_ Hcov].
  apply Forall_app in Hkids as [Hcs Hkids]. split.
  - unfold thread_ok. cbn [tdone ttodo]. repeat split; try done. by apply kids_tail.
  - unfold page_held. rewrite Htodo. cbn [ttodo kids flat_map].
    rewrite weight_app, (weight_zero _ children); [done|].
    apply Forall_forall. intros c Hc. apply finished_holds_nothing.
    + by eapply Forall_forall in Hcs.
    + apply forallb_forall with (x := c) in Hfin; [done|]. by apply list_elem_of_In.
Qed.

(** A fetch does its next event. *)
Lemma child_ok_step c ev crest :
  ctodo c = ev :: crest ->
  child_ok c ->
  child_ok {| cdone := cdone c ++ [ev]; ctodo := crest |}
  /\ touches QuerySem ev = false
  /\ (ev = EvRelease PageSem -> (1 <= holding PageSem (cdone c))%nat).
Proof.
  intros Htodo (Hsc & Hpa & Hfl & Hto). rewrite Htodo in *.
  apply scoped_step in Hsc as (Hsc & Hrel & Hwork).
  apply patient_step in Hpa as [Hpa _].
  apply Forall_cons in Hto as [Hev Hto].
  split; [|done].
  unfold child_ok. cbn [cdone ctodo]. rewrite holding_snoc.
  split; [done|]. split; [done|]. split; [|done].
  unfold in_flight_child. cbn [cdone]. rewrite last_snoc.
  destruct ev; try done. intros _. unfold after.
  rewrite !decide_False by done. by apply Hwork.
Qed.

Lemma thread_ok_child th children rest p c c' :
  ttodo th = Group children :: rest ->
  children !! p = Some c ->
  child_ok c' ->
  thread_ok th ->
  thread_ok {| tdone := tdone th; ttodo := Group (<[p := c']> children) :: rest |}
  /\ (page_held {| tdone := tdone th; ttodo := Group (<[p := c']> children) :: rest |}
      + holding PageSem (cdone c)
      = page_held th + holding PageSem (cdone c'))%nat.
Proof.
  intros Htodo Hp Hc' (Hsc & Hpa & Hcov & Hto & Hkids & Hfr). rewrite Htodo in *.
  csimpl in *. apply Forall_app in Hkids as [Hcs Hkids]. split.
  - unfold thread_ok. cbn [tdone ttodo]. csimpl. repeat split; try done.
    apply Forall_app. split; [|done]. by apply Forall_insert.
  - unfold page_held. rewrite Htodo. cbn [ttodo kids flat_map].
    rewrite !weight_app.
    pose proof (weight_insert (fun c => holding PageSem (cdone c)) children p c' c Hp).
    lia.
Qed.

(** The accounts of the two semaphores are kept by every step. *)
Lemma step_balanced a st st' : step a st = Some st' -> balanced st -> balanced st'.
Proof.
  intros Hstep (HQ & HP & Hok).
  destruct a as [q|q p]; simpl in Hstep;
    destruct (threads st !! q) as [th|] eqn:Hq; simpl in Hstep; try done;
    pose proof (Forall_lookup_1 _ _ _ _ Hok Hq) as Hth;
    destruct (ttodo th) as [|[ev|children] rest] eqn:Htodo; try done.
  - destruct (fire ev (sem st, query_sem st)) as [v|] eqn:Hfire; simplify_eq/=.
    destruct (thread_ok_single th ev rest Htodo Hth) as (Hth' & Hev & Hrel & Hheld).
    destruct (fire_query _ _ _ _ _ Hev Hfire Hrel) as [Hs Hv].
    pose proof (weight_insert (fun th => holding QuerySem (tdone th)) _ _
                  {| tdone := tdone th ++ [ev]; ttodo := rest |} _ Hq) as HwQ.
    pose proof (weight_insert page_held _ _
                  {| tdone := tdone th ++ [ev]; ttodo := rest |} _ Hq) as HwP.
    cbn [tdone] in HwQ. rewrite holding_snoc in HwQ. rewrite Hheld in HwP.
    unfold balanced, slots in *. cbn [sem query_sem threads].
    split; [lia|]. split; [lia|]. by apply Forall_insert.
  - destruct (forallb finished children) eqn:Hfin; simplify_eq/=.
    destruct (thread_ok_group th children rest Htodo Hfin Hth) as (Hth' & Hheld).
    pose proof (weight_insert (fun th => holding QuerySem (tdone th)) _ _
                  {| tdone := tdone th; ttodo := rest |} _ Hq) as HwQ.
    pose proof (weight_insert page_held _ _
                  {| tdone := tdone th; ttodo := rest |} _ Hq) as HwP.
    cbn [tdone] in HwQ. rewrite Hheld in HwP.
    unfold balanced, slots in *. cbn [sem query_sem threads].
    split; [lia|]. split; [lia|]. by apply Forall_insert.
  - destruct (children !! p) as [c|] eqn:Hp; simpl in Hstep; [|done].
    destruct (ctodo c) as [|ev crest] eqn:Hctodo; [done|].
    destruct (fire ev (sem st, query_sem st)) as [v|] eqn:Hfire; simplify_eq/=.
    assert (Hc : child_ok c).
    { destruct Hth as (_ & _ & _ & _ & Hkids & _). rewrite Htodo in Hkids.
      simpl in Hkids. apply Forall_app in Hkids as [Hcs _].
      exact (Forall_lookup_1 _ _ _ _ Hcs Hp). }
    destruct (child_ok_step c ev crest Hctodo Hc) as (Hc' & Hev & Hrel).
    destruct (fire_page _ _ _ _ _ Hev Hfire Hrel) as [Hs Hv].
    destruct (thread_ok_child th children rest p c _ Htodo Hp Hc' Hth) as (Hth' & Hheld).
    set (th' := {| tdone := tdone th; ttodo := Group _ :: rest |}) in *.
    pose proof (weight_insert (fun th => holding QuerySem (tdone th)) _ _ th' _ Hq) as HwQ.
    pose proof (weight_insert page_held _ _ th' _ Hq) as HwP.
    cbn [tdone cdone th'] in HwQ, Hheld. rewrite holding_snoc in Hheld.
    unfold balanced, slots in *. cbn [sem query_sem threads].
    split; [lia|]. split; [lia|]. by apply Forall_insert.
Qed.

Lemma run_balanced actions st : balanced st -> balanced (run actions st).
Proof.
  revert st. induction actions as [|a actions IH]; intros st Hst; simpl; [done|].
  apply IH. destruct (step a st) as [st'|] eqn:Hstep; simpl; [|done].
  by eapply step_balanced.
Qed.

Lemma load_fresh script : Forall (fun c => cdone c = []) (kids (load <$> script)).
Proof.
  induction script as [|[ev|children] script IH]; csimpl; [done|done|].
  apply Forall_app. split; [|done]. apply Forall_fmap, Forall_forall. by intros.
Qed.

(** Tasks that keep to the semaphores start with the accounts in order. *)
Lemma start_balanced scripts :
  Forall (fun script => thread_ok {| tdone := []; ttodo := load <$> script |}) scripts ->
  balanced (start scripts).
Proof.
  intros Hok. unfold balanced, start. cbn [sem query_sem threads].
  split; [|split].
  - rewrite weight_zero; [simpl; lia|]. apply Forall_fmap, Forall_forall. by intros.
  - rewrite weight_zero; [simpl; lia|]. apply Forall_fmap, Forall_forall.
    intros script _. unfold page_held. cbn [ttodo]. apply weight_zero.
    eapply Forall_impl; [apply load_fresh|]. by intros c ->.
  - by apply Forall_fmap.
Qed.

(** With the accounts in order, the queries being processed and the
    fetches in flight hold a slot each. *)
Lemma active_holds th :
  thread_ok th -> is_active th = true -> (1 <= holding QuerySem (tdone th))%nat.
Proof.
  intros (_ & _ & Hcov & _). unfold is_active.
  destruct (ttodo th) as [|[ev|children] rest]; [done|..]; simpl in Hcov.
  - intros Hdone. rewrite Hdone in Hcov. simpl in Hcov.
    apply andb_prop in Hcov as [Hheld _]. by apply Nat.leb_le.
  - intros _. apply andb_prop in Hcov as [Hheld _]. by apply Nat.leb_le.
Qed.

Lemma in_flight_holds th :
  thread_ok th ->
  (length (List.filter in_flight_child (crew th)) <= page_held th)%nat.
Proof.
  intros (_ & _ & _ & _ & Hkids & _). unfold crew, page_held.
  destruct (ttodo th) as [|[ev|children] rest]; simpl; [lia|lia|].
  simpl in Hkids. apply Forall_app in Hkids as [Hcs _].
  rewrite weight_app.
  pose proof (count_le_weight in_flight_child
                (fun c => holding PageSem (cdone c)) children) as Hle.
  assert (length (List.filter in_flight_child children)
          <= sum_list ((fun c => holding PageSem (cdone c)) <$> children))%nat; [|lia].
  apply Hle. eapply Forall_impl; [exact Hcs|]. by intros c (_ & _ & Hfl & _).
Qed.

Lemma weight_le {A} (f g : A -> nat) (l : list A) :
  Forall (fun x => (f x <= g x)%nat) l ->
  (sum_list (f <$> l) <= sum_list (g <$> l))%nat.
Proof. induction 1 as [|x l Hx _ IH]; csimpl; lia. Qed.

Lemma balanced_bounds st :
  balanced st ->
  (active st + query_sem st <= slots QuerySem)%nat
  /\ (in_flight st + sem st <= slots PageSem)%nat.
Proof.
  intros (HQ & HP & Hok). unfold active, in_flight. split.
  - pose proof (count_le_weight is_active (fun th => holding QuerySem (tdone th))
                  (threads st)) as Hle.
    assert (length (List.filter is_active (threads st))
            <= sum_list ((fun th => holding QuerySem (tdone th)) <$> threads st))%nat; [|lia].
    apply Hle. eapply Forall_impl; [exact Hok|]. intros th Hth. by apply active_holds.
  - pose proof (weight_le (fun th => length (List.filter in_flight_child (crew th)))
                  page_held (threads st)) as Hle.
    assert (sum_list ((fun th => length (List.filter in_flight_child (crew th)))
                        <$> threads st)
            <= sum_list (page_held <$> threads st))%nat; [|lia].
    apply Hle. eapply Forall_impl; [exact Hok|]. intros th Hth. by apply in_flight_holds.
Qed.

(** *** The tasks of the program keep to the semaphores *)

Lemma scoped_page_loop replies url headers ks held :
  scoped (EvAcquire PageSem) (EvRelease PageSem) is_work
    (loop_events replies url headers ks) held = Some held.
Proof.
  induction ks as [|k ks IH]; simpl; [done|].
  destruct (accepted _); [done|].
  destruct (k <? 2)%nat; simpl; apply IH.
Qed.

Lemma patient_page_loop replies url headers ks :
  patient PageSem (loop_events replies url headers ks) 0 = true.
Proof.
  induction ks as [|k ks IH]; simpl; [done|].
  destruct (accepted _); [done|].
  destruct (k <? 2)%nat; simpl; apply IH.
Qed.

Lemma loop_events_leave_queries replies url headers ks :
  Forall (fun ev => touches QuerySem ev = false) (loop_events replies url headers ks).
Proof.
  induction ks as [|k ks IH]; simpl; [done|].
  repeat (constructor; [done|]).
  destruct (accepted _); [done|].
  destruct (k <? 2)%nat; simpl; [by constructor|done].
Qed.

Lemma fetch_events_ok e url draw :
  child_ok {| cdone := []; ctodo := fetch_events e url draw |}.
Proof.
  unfold child_ok, fetch_events. cbn [cdone ctodo].
  split; [apply scoped_page_loop|]. split; [apply patient_page_loop|].
  split; [done|]. apply loop_events_leave_queries.
Qed.

Lemma fetch_scripts_ok e urls draw :
  Forall (fun c => child_ok {| cdone := []; ctodo := c |}) (fetch_scripts e urls draw).
Proof.
  revert draw. induction urls as [|url urls IH]; intros draw; simpl; [done|].
  constructor; [apply fetch_events_ok|apply IH].
Qed.

Section Program.
Context `{PyLib}.

Lemma save_events_cases e query draw :
  save_events e query draw = [] \/ save_events e query draw = [EvWrite (filename_of query)].
Proof.
  unfold save_events. destruct (scrape_outcome e query draw); [|by left].
  destruct (sink e (filename_of query)); by (left + right).
Qed.

(** The events of [process_query]: the slot of the query semaphore first,
    then the fetches, then the file, then the slot again. *)
Lemma script_of_process_query finish query e w :
  script_of (process_query finish query) e w
  = [Ev (EvAcquire QuerySem); Tasks (fetch_scripts e (page_urls query) (ua_draws w))]
    ++ (Ev <$> save_events e query (ua_draws w)) ++ [Ev (EvRelease QuerySem)].
Proof. unfold script_of. by rewrite process_query_run. Qed.

Lemma process_query_ok finish query e w :
  thread_ok {| tdone := []; ttodo := load <$> script_of (process_query finish query) e w |}.
Proof.
  rewrite script_of_process_query.
  pose proof (fetch_scripts_ok e (page_urls query) (ua_draws w)) as Hkids.
  assert (Hfresh : Forall (fun c => cdone c = [])
            ((fun c => {| cdone := []; ctodo := c |})
               <$> fetch_scripts e (page_urls query) (ua_draws w))).
  { apply Forall_fmap, Forall_forall. by intros. }
  revert Hkids Hfresh. generalize (fetch_scripts e (page_urls query) (ua_draws w)).
  intros scripts Hkids Hfresh.
  unfold thread_ok. cbn [tdone ttodo].
  apply Forall_fmap in Hkids.
  destruct (save_events_cases e query (ua_draws w)) as [-> | ->]; csimpl;
    rewrite ?app_nil_r; repeat split; try done; by repeat constructor.
Qed.

Lemma main_scripts_ok s queries e starts :
  Forall (fun script => thread_ok {| tdone := []; ttodo := load <$> script |})
         (main_scripts s queries e starts).
Proof.
  apply Forall_lookup. intros i script. unfold main_scripts, main_tasks.
  rewrite !list_lookup_imap.
  destruct (queries !! i) as [query|]; simpl; [|done]. intros [= <-].
  apply process_query_ok.
Qed.

Lemma main_balanced s queries e starts actions :
  balanced (run actions (start (main_scripts s queries e starts))).
Proof. apply run_balanced, start_balanced, main_scripts_ok. Qed.
End Program.

(** *** No state is a dead end *)

Lemma existsb_false {A} (p : A -> bool) (l : list A) x :
  existsb p l = false -> x ∈ l -> p x = false.
Proof.
  intros Hnone Hx. destruct (p x) eqn:Hp; [|done].
  rewrite <- Hnone. symmetry. apply existsb_exists. exists x.
  split; [by apply list_elem_of_In|done].
Qed.

Lemma existsb_found {A} (p : A -> bool) (l : list A) :
  existsb p l = true -> exists i x, l !! i = Some x /\ p x = true.
Proof.
  intros (x & Hx%list_elem_of_In%list_elem_of_lookup_1 & Hp)%existsb_exists.
  destruct Hx as [i Hi]. by exists i, x.
Qed.

Lemma weight_positive {A} (f : A -> nat) (l : list A) :
  (0 < sum_list (f <$> l))%nat -> exists x, x ∈ l /\ (0 < f x)%nat.
Proof.
  induction l as [|x l IH]; csimpl; [lia|]. intros Hsum.
  destruct (f x) eqn:Hx.
  - destruct IH as (y & Hy & Hfy); [lia|]. exists y. split; [by right|done].
  - exists x. split; [by left|lia].
Qed.

(** A fetch that holds a slot has something to do that asks for no slot. *)
Lemma holder_is_ready c :
  child_ok c -> (0 < holding PageSem (cdone c))%nat -> ready_child c = true.
Proof.
  intros (Hsc & Hpa & _) Hheld. unfold ready_child.
  destruct (ctodo c) as [|ev crest]; simpl in Hsc.
  - simplify_eq. lia.
  - apply patient_step in Hpa as [_ Hacq].
    rewrite bool_decide_eq_false_2; [done|]. intros Hev. specialize (Hacq Hev). lia.
Qed.

(** A query that holds a slot stands at a [gather] or has something to do
    that asks for no slot. *)
Lemma holder_goes_on th :
  thread_ok th -> (0 < holding QuerySem (tdone th))%nat ->
  at_gather th = true \/ ready th = true.
Proof.
  intros (Hsc & Hpa & _) Hheld. unfold at_gather, ready.
  destruct (ttodo th) as [|[ev|children] rest]; csimpl in *.
  - simplify_eq. lia.
  - right. apply patient_step in Hpa as [_ Hacq].
    rewrite bool_decide_eq_false_2; [done|]. intros Hev. specialize (Hacq Hev). lia.
  - by left.
Qed.

(** The fetch that holds a slot is one of the [gather] at which its query
    stands. *)
Lemma holder_in_crew th c :
  thread_ok th -> c ∈ kids (ttodo th) -> (0 < holding PageSem (cdone c))%nat ->
  c ∈ crew th.
Proof.
  intros (_ & _ & _ & _ & _ & Hfr) Hc Hheld. unfold crew.
  assert (Hlater : c ∉ kids (tail (ttodo th))).
  { intros Hin. eapply Forall_forall in Hfr; [|exact Hin].
    rewrite Hfr in Hheld. unfold holding in Hheld. simpl in Hheld. lia. }
  destruct (ttodo th) as [|[ev|children] rest]; simpl in *; [done|done|].
  by apply elem_of_app in Hc as [Hc|Hc].
Qed.

Lemma child_step_possible st q th children rest p c :
  threads st !! q = Some th ->
  ttodo th = Group children :: rest ->
  children !! p = Some c ->
  child_ok c ->
  ready_child c = true \/ (busy_child c = true /\ (0 < sem st)%nat) ->
  is_Some (step (Child q p) st).
Proof.
  intros Hq Htodo Hp (_ & _ & _ & Hto) Hgo. simpl. rewrite Hq. simpl.
  rewrite Htodo, Hp. simpl.
  unfold ready_child, busy_child, finished in Hgo.
  destruct (ctodo c) as [|ev crest]; [by destruct Hgo as [|[]]|].
  apply Forall_cons in Hto as [Hev _].
  destruct (fire ev (sem st, query_sem st)) as [v|] eqn:Hfire; [by eexists|].
  apply fire_waits in Hfire as [[-> Hs]|[-> _]]; [|done].
  destruct Hgo as [Hgo|[_ Hgo]]; [done|lia].
Qed.

Lemma own_step_possible st q th ev rest :
  threads st !! q = Some th ->
  ttodo th = Single ev :: rest ->
  thread_ok th ->
  ready th = true \/ (0 < query_sem st)%nat ->
  is_Some (step (Own q) st).
Proof.
  intros Hq Htodo (_ & _ & _ & Hto & _) Hgo. simpl. rewrite Hq. simpl.
  rewrite Htodo in *. csimpl in *. apply Forall_cons in Hto as [Hev _].
  destruct (fire ev (sem st, query_sem st)) as [v|] eqn:Hfire; [by eexists|].
  apply fire_waits in Hfire as [[-> _]|[-> Hqs]]; [done|].
  unfold ready in Hgo. rewrite Htodo in Hgo. destruct Hgo as [Hgo|Hgo]; [done|lia].
Qed.

(** With the accounts in order, a state in which a task has something left
    to do has a step. *)
Lemma balanced_moves st :
  balanced st -> all_done st = false -> exists a, is_Some (step a st).
Proof.
  intros (HQ & HP & Hok) Hleft. unfold slots in *.
  assert (Hcrew : forall q th p c,
            threads st !! q = Some th -> crew th !! p = Some c ->
            exists children rest,
              ttodo th = Group children :: rest /\ children !! p = Some c /\ child_ok c).
  { intros q th p c Hq Hp. unfold crew in Hp.
    destruct (Forall_lookup_1 _ _ _ _ Hok Hq) as (_ & _ & _ & _ & Hkids & _).
    destruct (ttodo th) as [|[ev|children] rest]; [done|done|].
    exists children, rest. split; [done|]. split; [done|].
    simpl in Hkids. apply Forall_app in Hkids as [Hcs _].
    exact (Forall_lookup_1 _ _ _ _ Hcs Hp). }
  destruct (existsb (fun th => existsb ready_child (crew th)) (threads st)) eqn:Hready.
  { apply existsb_found in Hready as (q & th & Hq & (p & c & Hp & Hc)%existsb_found).
    destruct (Hcrew q th p c Hq Hp) as (children & rest & Htodo & Hp' & Hcok).
    exists (Child q p). eapply child_step_possible; eauto. }
  destruct (existsb (fun th => existsb busy_child (crew th)) (threads st)) eqn:Hbusy.
  { apply existsb_found in Hbusy as (q & th & Hq & (p & c & Hp & Hc)%existsb_found).
    destruct (Hcrew q th p c Hq Hp) as (children & rest & Htodo & Hp' & Hcok).
    exists (Child q p). eapply child_step_possible; eauto. right. split; [done|].
    destruct (sem st) as [|n] eqn:Hsem; [exfalso|lia].
    destruct (weight_positive page_held (threads st)) as (th' & Hth' & Hheld); [lia|].
    pose proof (proj1 (Forall_forall _ _) Hok th' Hth') as Hok'.
    destruct (weight_positive (fun c => holding PageSem (cdone c)) (kids (ttodo th')))
      as (c' & Hc' & Hheld'); [done|].
    assert (Hcok' : child_ok c').
    { destruct Hok' as (_ & _ & _ & _ & Hkids & _).
      by eapply Forall_forall in Hkids. }
    pose proof (holder_in_crew th' c' Hok' Hc' Hheld') as Hin.
    pose proof (holder_is_ready c' Hcok' Hheld') as Hgo.
    pose proof (existsb_false _ _ th' Hready Hth') as Hnone. simpl in Hnone.
    by rewrite (existsb_false _ _ c' Hnone Hin) in Hgo. }
  destruct (existsb at_gather (threads st)) eqn:Hgather.
  { apply existsb_found in Hgather as (q & th & Hq & Hth).
    exists (Own q). simpl. rewrite Hq. simpl.
    unfold at_gather in Hth.
    destruct (ttodo th) as [|[ev|children] rest] eqn:Htodo; try done.
    assert (Hfin : forallb finished children = true).
    { apply forallb_forall. intros c Hc%list_elem_of_In.
      pose proof (existsb_false _ _ th Hbusy (list_elem_of_lookup_2 _ _ _ Hq)) as Hnone.
      simpl in Hnone. unfold crew in Hnone. rewrite Htodo in Hnone.
      pose proof (existsb_false _ _ c Hnone Hc) as Hc'. unfold busy_child in Hc'.
      by destruct (finished c). }
    rewrite Hfin. by eexists. }
  destruct (existsb ready (threads st)) eqn:Hrdy.
  { apply existsb_found in Hrdy as (q & th & Hq & Hth).
    pose proof (Forall_lookup_1 _ _ _ _ Hok Hq) as Hthok.
    unfold ready in Hth.
    destruct (ttodo th) as [|[ev|children] rest] eqn:Htodo; try done.
    exists (Own q). eapply own_step_possible; eauto. left.
    unfold ready. by rewrite Htodo. }
  assert (Hsome : exists q th, threads st !! q = Some th /\ ttodo th <> []).
  { unfold all_done in Hleft.
    destruct (existsb (fun th => negb (bool_decide (ttodo th = []))) (threads st)) eqn:Hex.
    - apply existsb_found in Hex as (q & th & Hq & Hth). exists q, th. split; [done|].
      intros Hnil. by rewrite bool_decide_eq_true_2 in Hth.
    - exfalso.
      assert (Hall : forallb (fun th => bool_decide (ttodo th = [])) (threads st) = true);
        [|congruence].
      apply forallb_forall.
      intros th Hth%list_elem_of_In.
      pose proof (existsb_false _ _ th Hex Hth) as Hnone. simpl in Hnone.
      by destruct (bool_decide (ttodo th = [])). }
  destruct Hsome as (q & th & Hq & Hth).
  pose proof (Forall_lookup_1 _ _ _ _ Hok Hq) as Hthok.
  pose proof (existsb_false _ _ th Hgather (list_elem_of_lookup_2 _ _ _ Hq)) as Hng.
  unfold at_gather in Hng.
  destruct (ttodo th) as [|[ev|children] rest] eqn:Htodo; try done.
  exists (Own q). eapply own_step_possible; eauto. right.
  destruct (query_sem st) as [|n] eqn:Hqs; [exfalso|lia].
  destruct (weight_positive (fun th => holding QuerySem (tdone th)) (threads st))
    as (th' & Hth' & Hheld); [lia|].
  pose proof (proj1 (Forall_forall _ _) Hok th' Hth') as Hok'.
  destruct (holder_goes_on th' Hok' Hheld) as [Hg|Hr].
  - by rewrite (existsb_false _ _ th' Hgather Hth') in Hg.
  - by rewrite (existsb_false _ _ th' Hrdy Hth') in Hr.
Qed.

Lemma main_moves `{PyLib} s queries e starts actions :
  let st := run actions (start (main_scripts s queries e starts)) in
  all_done st = false -> exists a, is_Some (step a st).
Proof. intros st. apply balanced_moves, main_balanced. Qed.

(** The bounds are reached, and then a fourth query and an eleventh fetch
    have to wait, while a fetch that holds a slot goes on. *)
Lemma full_house_waits :
  let st :=
    run full_house
      (start (@main_scripts stub_lib in_order [py "a"; py "b"; py "c"; py "d"]
                (readonly_env []) (fun _ => initial_world))) in
  active st = 3%nat /\ in_flight st = 10%nat
  /\ query_sem st = 0%nat /\ sem st = 0%nat
  /\ step (Own 3) st = None /\ step (Child 2 0) st = None
  /\ is_Some (step (Child 0 0) st).
Proof. vm_compute. repeat split. by eexists. Qed.

End LoopFacts.

(** C9. The tasks of [main] are those of its calls of [process_query],
    each with the fetches of its [gather]; the event loop runs them one
    event at a time, in any order, and makes a task wait at [async with]
    while the semaphore has no slot.  In every state that such a run
    reaches, at most 3 queries are being processed and at most 10 page
    fetches, over all the queries, have a request in flight; what the
    semaphores still hold comes on top of that, within the same bounds. *)
Theorem limiters_are_never_exceeded `{PyLib} (s : schedule) (queries : list str)
    (e : env) (starts : nat -> world) (actions : list Loop.action) :
  let st := Loop.run actions (Loop.start (main_scripts s queries e starts)) in
  (Loop.active st <= 3)%nat /\ (Loop.in_flight st <= 10)%nat
  /\ (Loop.active st + Loop.query_sem st <= 3)%nat
  /\ (Loop.in_flight st + Loop.sem st <= 10)%nat.
Proof.
  intros st.
  destruct (LoopFacts.balanced_bounds st
              (LoopFacts.main_balanced s queries e starts actions)) as [HQ HP].
  unfold slots in *. lia.
Qed.

(* ===================================================================== *)
(** * Part III: further properties                                        *)
(* ===================================================================== *)

(** ** The trace of [fetch_page] *)

(** X1. [fetch_page] stops at the first response of status 200: when
    attempt [k] is the first to get one, the call returns its body after
    exactly [k + 1] requests. *)
Theorem fetch_page_stops_at_first_200 (url html : str) (k : nat) (e : env) (w : world) :
  (k < RETRIES)%nat ->
  http_get e url (ua_random e (ua_draws w)) k = Response 200 html ->
  (forall j, (j < k)%nat ->
     attempt_fails (http_get e url (ua_random e (ua_draws w)) j) = true) ->
  (fetch_page url e w).1 = Ok (Some html)
  /\ length (requests (new_events w (fetch_page url e w).2)) = S k.
Proof.
  intros Hk Hat Hbefore. set (replies := http_get e url (ua_random e (ua_draws w))) in *.
  assert (Hmade : attempts_made replies (seq 0 RETRIES) = S k).
  { apply attempts_made_first; [done| |].
    - intros j Hj. apply accepted_None. by apply Hbefore.
    - simpl. rewrite Hat. by eexists. }
  split.
  - rewrite fetch_page_events. cbn [fst]. unfold fetch_outcome. fold replies.
    destruct (first_accepted replies (seq 0 RETRIES)) as [h|] eqn:Hfirst.
    + apply first_accepted_seq in Hfirst as (i & Hi & Hacc & Hnone).
      destruct (Nat.lt_trichotomy i k) as [Hlt|[->|Hgt]].
      * apply Hbefore, accepted_None in Hlt. fold replies in Hlt. congruence.
      * apply accepted_Some in Hacc. congruence.
      * assert (Hn : accepted (replies k) = None) by (apply Hnone; lia).
        apply accepted_Some in Hat. congruence.
    + exfalso. eapply first_accepted_None in Hfirst; [|apply elem_of_seq; split; [lia|exact Hk]].
      apply accepted_Some in Hat. simpl in Hfirst. congruence.
  - rewrite new_events_fetch_page. unfold fetch_events. fold replies.
    by rewrite requests_loop_events, length_replicate.
Qed.

Lemma fetch_page_stops_at_first_200_witness :
  length (requests (new_events initial_world
            (fetch_page (py "u") (readonly_env []) initial_world).2)) = 1%nat.
Proof.
  apply (fetch_page_stops_at_first_200 (py "u") sponsored_html 0
           (readonly_env []) initial_world).
  - unfold RETRIES. lia.
  - reflexivity.
  - intros j Hj. lia.
Defined.

(** X2. [fetch_page] sleeps two seconds between two attempts and never
    after the last one: a call makes between 1 and [RETRIES] requests and
    one sleep less than requests. *)
Theorem fetch_page_backs_off_between_attempts (url : str) (e : env) (w : world) :
  let tr := new_events w (fetch_page url e w).2 in
  (1 <= length (requests tr) <= RETRIES)%nat
  /\ sleeps tr = replicate (length (requests tr) - 1) 2.
Proof.
  intros tr. subst tr. rewrite new_events_fetch_page. unfold fetch_events.
  rewrite requests_loop_events, length_replicate.
  split; [apply attempts_made_bounds|]. by apply sleeps_loop_events.
Qed.

(** X3. The events of a call of [fetch_page] are those of its attempts, one
    after another, with one sleep of two seconds between an attempt and
    the next and nothing else: each attempt opens its own connector,
    takes a slot of the page semaphore, sends its one request, gives the
    slot back and closes the connector, whether it returns, gets another
    status or raises.  The call sleeps and returns with no connector open
    and no slot held. *)
Theorem fetch_page_closes_its_connectors (url : str) (e : env) (w : world) :
  let tr := new_events w (fetch_page url e w).2 in
  let user_agent := ua_random e (ua_draws w) in
  (1 <= length (requests tr) <= RETRIES)%nat
  /\ tr = backed_off (length (requests tr))
            [EvOpen; EvAcquire PageSem; EvRequest url user_agent;
             EvRelease PageSem; EvClose].
Proof.
  intros tr user_agent. subst tr. rewrite new_events_fetch_page. unfold fetch_events.
  rewrite requests_loop_events, length_replicate.
  split; [apply attempts_made_bounds|]. by apply loop_events_backed_off.
Qed.

(** ** The addresses and the requests of [scrape_query] *)

Section ScrapeTrace.
Context `{PyLib}.

Lemma py_inj (a b : string) : py a = py b -> a = b.
Proof.
  unfold py. intros Heq.
  rewrite <- (string_of_list_ascii_of_string a), <- (string_of_list_ascii_of_string b).
  f_equal. revert Heq. generalize (list_ascii_of_string a) (list_ascii_of_string b).
  intros l. induction l as [|x l IH]; intros [|y l']; csimpl; try done.
  intros [= Hxy Hl]. f_equal; [|by apply IH].
  by rewrite <- (ascii_N_embedding x), <- (ascii_N_embedding y), Hxy.
Qed.

(** [str] gives different numbers different numerals. *)
Lemma str_of_Z_inj (a b : Z) : str_of_Z a = str_of_Z b -> a = b.
Proof.
  unfold str_of_Z. intros Heq%py_inj.
  assert (Hnil : forall z, Z.to_int z <> Decimal.Pos Decimal.Nil
                           /\ Z.to_int z <> Decimal.Neg Decimal.Nil).
  { intros [|p|p]; simpl; split; try done; intros [= Hp];
      by apply DecimalPos.Unsigned.to_uint_nonnil in Hp. }
  apply DecimalZ.to_int_inj.
  assert (Hsome : Some (Z.to_int a) = Some (Z.to_int b)); [|by injection Hsome].
  destruct (Hnil a) as [Ha1 Ha2], (Hnil b) as [Hb1 Hb2].
  rewrite <- (NilZero.isi (Z.to_int a)), <- (NilZero.isi (Z.to_int b)) by done.
  by rewrite Heq.
Qed.

Lemma url_of_inj query p1 p2 : url_of query p1 = url_of query p2 -> p1 = p2.
Proof.
  unfold url_of.
  destruct (Z.eqb_spec p1 1) as [->|H1], (Z.eqb_spec p2 1) as [->|H2]; [done|..].
  - intros Heq%app_inv_head. rewrite <- (app_nil_r (quote query)) in Heq at 1.
    by apply app_inv_head in Heq.
  - intros Heq%app_inv_head. rewrite <- (app_nil_r (quote query)) in Heq at 2.
    by apply app_inv_head in Heq.
  - intros Heq%app_inv_head%app_inv_head%app_inv_head%str_of_Z_inj. lia.
Qed.

Lemma requests_fetch_events e url draw :
  exists n, (1 <= n <= RETRIES)%nat
            /\ requests (fetch_events e url draw) = replicate n (url, ua_random e draw).
Proof.
  unfold fetch_events. rewrite requests_loop_events. eexists. split; [|done].
  apply (attempts_made_bounds _ 0%nat (seq 1 2)).
Qed.

Lemma requests_fetch_all e urls draw :
  (length urls <= length (requests (fetch_all_events e urls draw))
   <= RETRIES * length urls)%nat
  /\ Forall (fun rq => rq.1 ∈ urls) (requests (fetch_all_events e urls draw))
  /\ forall url, url ∈ urls -> url ∈ (requests (fetch_all_events e urls draw)).*1.
Proof.
  unfold fetch_all_events.
  revert draw. induction urls as [|url urls IH]; intros draw;
    cbn [fetch_scripts concat length].
  - split; [simpl; lia|]. split; [constructor|]. by intros url ?%not_elem_of_nil.
  - destruct (IH (S draw)) as (Hlen & Hall & Hsome).
    destruct (requests_fetch_events e url draw) as (n & Hn & Hreq).
    rewrite requests_app, Hreq, length_app, length_replicate.
    split; [lia|]. split.
    + apply Forall_app. split.
      * apply Forall_replicate. by left.
      * eapply Forall_impl; [exact Hall|]. intros rq Hrq. by right.
    + intros u [->|Hu]%elem_of_cons; rewrite fmap_app; apply elem_of_app.
      * left. destruct n as [|n]; [lia|]. by left.
      * right. by apply Hsome.
Qed.

(** The loop of [scrape_query] over the outcomes of [fetch_page]. *)
Lemma structure_fetched query e urls draw start :
  mapM (fun '(page_num, html) => parse_page (content_of html) query page_num)
       (enumerate (fetch_all_outcomes e urls draw) start)
  = mapM id (imap (fun i url =>
                     parse_page (fetch_outcome e url (draw + i)) query
                       (start + Z.of_nat i))
                  urls).
Proof.
  revert draw start. induction urls as [|url urls IH]; intros draw start; [done|].
  cbn [fetch_all_outcomes enumerate imap]. rewrite !mapM_cons.
  cbn [content_of id]. rewrite Nat.add_0_r, Z.add_0_r.
  rewrite IH.
  replace (imap (fun i url0 => parse_page (fetch_outcome e url0 (S draw + i)) query
                                 (start + 1 + Z.of_nat i)) urls)
    with (imap ((fun i url0 => parse_page (fetch_outcome e url0 (draw + i)) query
                                 (start + Z.of_nat i)) ∘ S) urls); [done|].
  apply imap_ext. intros i u _. simpl. f_equal; [f_equal|]; lia.
Qed.
End ScrapeTrace.

(** X5. The pages of a query have pairwise different addresses: [url_of]
    gives different page numbers different addresses, so the [PAGES]
    fetches of a query never ask for the same page twice. *)
Theorem page_urls_are_distinct `{PyLib} (query : str) :
  (forall p1 p2, url_of query p1 = url_of query p2 -> p1 = p2)
  /\ NoDup (page_urls query).
Proof.
  split; [apply url_of_inj|].
  unfold page_urls, range. apply NoDup_fmap_2; [|apply NoDup_seqZ].
  intros p1 p2. apply url_of_inj.
Qed.

(** X6. What [scrape_query] returns is, page by page, the parse of what the
    fetch of that page returned: page [i + 1] is the [parse_page] of the
    first body of status 200 among the replies to the address of page
    [i + 1], sent with the User-Agent of draw [i] of the query, under the
    keyword of the query; the pages are parsed in the order of their
    numbers, and the first one on which [parse_page] raises ends
    [scrape_query] with its exception.  The order of completion has no
    part in it. *)
Theorem scrape_query_parses_each_page `{PyLib} (finish : nat -> nat) (query : str)
    (e : env) (w : world) :
  (scrape_query finish query e w).1
  = (fun pages => {[ query := pages ]})
      <$> mapM id
            (imap (fun i url =>
                     parse_page (fetch_outcome e url (ua_draws w + i)) query
                       (Z.of_nat i + 1))
                  (page_urls query)).
Proof.
  rewrite scrape_query_run. cbn [fst]. unfold scrape_outcome, structure.
  rewrite structure_fetched. by f_equal.
Qed.

(** X7. A [scrape_query] draws [PAGES] User-Agents, leaves the files as they
    are and sends between [PAGES] and [PAGES * RETRIES] requests, each to
    the address of one of the pages of the query, every page being asked
    for at least once. *)
Theorem scrape_query_requests `{PyLib} (finish : nat -> nat) (query : str)
    (e : env) (w : world) :
  let w' := (scrape_query finish query e w).2 in
  let sent := requests (new_events w w') in
  ua_draws w' = (ua_draws w + Z.to_nat PAGES)%nat
  /\ files w' = files w
  /\ (Z.to_nat PAGES <= length sent <= RETRIES * Z.to_nat PAGES)%nat
  /\ Forall (fun rq => rq.1 ∈ page_urls query) sent
  /\ forall url, url ∈ page_urls query -> url ∈ sent.*1.
Proof.
  intros w' sent. subst sent w'.
  rewrite scrape_query_run. unfold new_events. cbn [snd ua_draws files trace].
  rewrite drop_app_length. cbn [events_of flat_map]. rewrite app_nil_r.
  fold (fetch_all_events e (page_urls query) (ua_draws w)).
  destruct (requests_fetch_all e (page_urls query) (ua_draws w)) as (Hlen & Hall & Hsome).
  rewrite page_urls_length in Hlen. done.
Qed.

(** X17. Where [parse_page] raises on none of the pages that were fetched,
    [scrape_query] returns a document that maps the query to exactly
    [PAGES] page results, with the page indices 1, ..., [PAGES] in this
    order, whatever the fetcher does and whenever its fetches finish; the
    document is the same for every order of completion. *)
Theorem parsed_pages_come_in_order `{PyLib} (fetch : str -> M (option str))
    (finish : nat -> nat) (query : str) (e : env) (w : world) :
  (forall i html,
     page_outcomes fetch query e w !! i = Some (Ok (Some html)) ->
     parse_raises html = false) ->
  exists ps w',
    scrape_query_with fetch finish query e w = (Ok {[ query := ps ]}, w')
    /\ length ps = Z.to_nat PAGES
    /\ page <$> ps = seqZ 1 PAGES
    /\ forall finish',
         scrape_query_with fetch finish' query e w = (Ok {[ query := ps ]}, w').
Proof.
  intros Hparse.
  destruct (structure_total query (page_outcomes fetch query e w)) as [ps Hps].
  { intros i r Hi. apply parse_page_content. intros html ->. by eapply Hparse. }
  exists ps, (after_fetches fetch query e w).
  assert (Hrun : forall finish',
            scrape_query_with fetch finish' query e w
            = (Ok {[ query := ps ]}, after_fetches fetch query e w)).
  { intros finish'. by rewrite scrape_query_with_run, Hps. }
  split; [apply Hrun|].
  split; [apply structure_Ok in Hps as [-> _]; apply page_outcomes_length|].
  split; [|done].
  apply structure_pages in Hps. by rewrite page_outcomes_length in Hps.
Qed.

Lemma parsed_pages_come_in_order_witness :
  exists ps,
    (@scrape_query_with stub_lib fetch_page (fun i => (4 - i)%nat) (py "cats")
       (readonly_env []) initial_world).1 = Ok {[ py "cats" := ps ]}
    /\ page <$> ps = [1; 2; 3; 4; 5].
Proof.
  destruct (@parsed_pages_come_in_order stub_lib fetch_page (fun i => (4 - i)%nat)
              (py "cats") (readonly_env []) initial_world)
    as (ps & w' & Hrun & _ & Hpages & _).
  - intros i html Hi. rewrite page_outcomes_fetch_page, fetch_all_outcomes_lookup in Hi.
    destruct (page_urls (py "cats") !! i); simplify_eq/=. reflexivity.
  - exists ps. rewrite Hrun. split; [reflexivity|exact Hpages].
Defined.

(** ** The records of [parse_page] *)

Section RecordFacts.
Context `{PyLib}.

Lemma lstrip_clean s : clean_start (lstrip s).
Proof.
  induction s as [|c s IH]; simpl; [done|].
  destruct (isspace c) eqn:Hc; [done|]. by simpl.
Qed.

Lemma lstrip_fixed s : clean_start s -> lstrip s = s.
Proof. destruct s as [|c s]; simpl; [done|]. by intros ->. Qed.

Lemma lstrip_suffix s : exists k, s = k ++ lstrip s.
Proof.
  induction s as [|c s [k IH]]; simpl; [by exists []|].
  destruct (isspace c).
  - exists (c :: k). simpl. by f_equal.
  - by exists [].
Qed.

Lemma strip_clean s : clean_start (strip s) /\ clean_start (rev (strip s)).
Proof.
  unfold strip. set (u := lstrip s). set (v := lstrip (rev u)).
  split.
  - destruct (lstrip_suffix (rev u)) as [k Hk]. fold v in Hk.
    assert (Hu : u = rev v ++ rev k).
    { rewrite <- (rev_involutive u), Hk. apply rev_app_distr. }
    destruct (rev v) as [|c t] eqn:Hv; [done|].
    pose proof (lstrip_clean s) as Hclean. fold u in Hclean.
    rewrite Hu in Hclean. done.
  - rewrite rev_involutive. apply lstrip_clean.
Qed.

(** [strip] leaves a stripped text as it is. *)
Lemma strip_strip s : strip (strip s) = strip s.
Proof.
  destruct (strip_clean s) as [Hfront Hback].
  unfold strip at 1. rewrite (lstrip_fixed _ Hfront), (lstrip_fixed _ Hback).
  apply rev_involutive.
Qed.

Lemma strip_nonempty s c t : strip s = c :: t -> strip (c :: t) = c :: t.
Proof. intros <-. apply strip_strip. Qed.

Lemma parse_result_well_formed kw container r :
  parse_result kw container = Ok (Some r) -> well_formed kw r.
Proof.
  unfold parse_result. destruct (find_sponsored container); [done|].
  destruct (find_link container) as [[href link_text]|]; [|done].
  destruct (startswith href (py "http")) eqn:Hhttp; [|done].
  cbn [negb]. destruct (netloc href) as [domain|] eqn:Hloc; [|done].
  cbn [mbind outcome_bind]. intros [= <-]. unfold well_formed; simpl.
  split; [done|]. split; [|split; [|split; [|split; [done|]]]].
  - by destruct (strip link_text).
  - destruct (strip link_text) as [|c t] eqn:Ht; [done|]. by eapply strip_nonempty.
  - destruct (find_description container); [apply strip_strip|done].
  - by rewrite Hloc.
Qed.

(** The marker of line 73 is never found in a lower-cased text, as soon as
    the table above ASCII does not produce the letter G. *)
Lemma marker_never_found (t : str) :
  (forall d, (128 <= d)%N -> 71%N ∉ lower_tab d) ->
  contains (py "provided by Google") (lower t) = false.
Proof.
  intros Htab. apply not_true_is_false. intros Ht.
  assert (Hin : 71%N ∈ lower t).
  { eapply contains_elem; [exact Ht|]. apply list_elem_of_In. vm_compute. tauto. }
  clear Ht. unfold lower in Hin. induction t as [|d t IH]; simpl in Hin.
  - by apply not_elem_of_nil in Hin.
  - apply elem_of_app in Hin as [Hd|Hrest]; [|by apply IH].
    unfold lower_char in Hd. destruct (N.ltb_spec d 128) as [Hlt|Hge].
    + apply list_elem_of_singleton in Hd.
      destruct (between 65 90 d) eqn:Hcap; [|subst d; done].
      unfold between in Hcap. apply andb_prop in Hcap as [Hlo _].
      apply N.leb_le in Hlo. lia.
    + by apply (Htab d).
Qed.

Lemma find_sponsored_above_ascii (container : node) :
  (forall d, (128 <= d)%N -> 71%N ∉ lower_tab d) -> find_sponsored container = false.
Proof.
  intros Htab. unfold find_sponsored.
  apply not_true_is_false. intros (t & _ & Ht)%existsb_exists.
  unfold sponsored_text in Ht. apply andb_prop in Ht as [_ Ht].
  by rewrite marker_never_found in Ht.
Qed.
End RecordFacts.

(** X8. Every record that [parse_page] returns has a link that begins with
    'http', a title that is not empty, a title and a description without
    white space around them, the keyword that was passed, and the favicon
    address of the domain that [urlparse] gives for its link. *)
Theorem parse_page_records_are_well_formed `{PyLib} (html : option str) (kw : str)
    (page_num : Z) (p : PageResult) :
  parse_page html kw page_num = Ok p ->
  page p = page_num /\ Forall (well_formed kw) (results p).
Proof.
  intros Hp. split; [by eapply parse_page_page|].
  destruct html as [h|]; simpl in Hp; [|by simplify_eq].
  destruct (BeautifulSoup h) as [soup|]; cbn [mbind outcome_bind] in Hp; [|done].
  destruct (mapM (parse_result kw) (select soup)) as [records|] eqn:Hrecords;
    cbn [mbind outcome_bind] in Hp; [|done].
  simplify_eq. cbn [results]. apply mapM_Ok in Hrecords.
  apply Forall_forall. intros r (o & Ho & Hr)%list_elem_of_omap. simpl in Hr. subst o.
  apply list_elem_of_lookup_1 in Ho as [i Hi].
  destruct (Forall2_lookup_r _ _ _ _ _ Hrecords Hi) as (container & _ & Hc).
  by eapply parse_result_well_formed.
Qed.

Lemma parse_page_records_are_well_formed_witness :
  exists p,
    @parse_page stub_lib (Some sponsored_html) (py "cats") 1 = Ok p
    /\ Forall (@well_formed stub_lib (py "cats")) (results p)
    /\ length (results p) = 1%nat.
Proof.
  eexists. split; [reflexivity|]. split; [|reflexivity].
  apply (@parse_page_records_are_well_formed stub_lib (Some sponsored_html) (py "cats") 1).
  reflexivity.
Defined.

(** X9. A container is dropped exactly when it has no hyperlink with an
    [href], or its first one does not begin with 'http'; the test on the
    sponsorship marker never drops one.  A container raises exactly when
    its first hyperlink begins with 'http' and [urlparse] raises on it. *)
Theorem container_is_kept_for_its_first_link `{PyLib} (kw : str) (container : node) :
  (forall d, (128 <= d)%N -> 71%N ∉ lower_tab d) ->
  (parse_result kw container = Ok None <->
   (forall href link_text,
      find_link container = Some (href, link_text) ->
      startswith href (py "http") = false))
  /\ (forall x,
        parse_result kw container = Raise x <->
        exists href link_text,
          find_link container = Some (href, link_text)
          /\ startswith href (py "http") = true
          /\ netloc href = Raise x).
Proof.
  intros Htab. unfold parse_result. rewrite find_sponsored_above_ascii by done.
  destruct (find_link container) as [[href link_text]|].
  - destruct (startswith href (py "http")) eqn:Hhttp; cbn [negb].
    + destruct (netloc href) as [domain|y] eqn:Hloc; cbn [mbind outcome_bind].
      * split.
        -- split; [done|]. intros Hall. specialize (Hall _ _ eq_refl). congruence.
        -- intros x. split; [done|]. intros (? & ? & [= <- <-] & _ & ?). congruence.
      * split.
        -- split; [done|]. intros Hall. specialize (Hall _ _ eq_refl). congruence.
        -- intros x. split.
           ++ intros [= <-]. by eexists _, _.
           ++ intros (? & ? & [= <- <-] & _ & ?). congruence.
    + split.
      * split; [|done]. by intros _ ? ? [= <- <-].
      * intros x. split; [done|]. intros (? & ? & [= <- <-] & ? & _). congruence.
  - split.
    + split; [|done]. by intros _ ? ? [=].
    + intros x. split; [done|]. by intros (? & ? & [=] & _).
Qed.

Lemma container_is_kept_for_its_first_link_witness :
  @parse_result stub_lib (py "kw")
    (Tag (py "div") [] [Tag (py "a") [(py "href", py "/about")] []]) = Ok None.
Proof.
  apply (@container_is_kept_for_its_first_link stub_lib).
  - intros d Hd Hin. simpl in Hin. apply list_elem_of_singleton in Hin as <-.
    lia.
  - intros href link_text [= <- <-]. reflexivity.
Defined.

(** ** The file name *)

Section NameFacts.
Context `{PyLib}.

Lemma safe_query_chars query :
  Forall (fun c => isalnum c = true \/ c = underscore) (safe_query query).
Proof.
  induction query as [|c q IH]; [constructor|].
  rewrite safe_query_cons. destruct (retained c) eqn:Hc; [|done].
  constructor; [|done].
  destruct (N.eqb_spec c space) as [->|Hne]; [by right|].
  unfold retained in Hc. apply orb_prop in Hc as [[Hc|Hc]%orb_prop|Hc].
  - by left.
  - by apply N.eqb_eq in Hc.
  - right. by apply N.eqb_eq in Hc.
Qed.

Lemma safe_query_fixed query :
  Forall (fun c => isalnum c = true \/ c = underscore) query ->
  safe_query query = query.
Proof.
  induction 1 as [|c q Hc _ IH]; [done|].
  rewrite safe_query_cons, IH.
  assert (Hkeep : retained c = true /\ (c =? space)%N = false).
  { unfold retained. destruct Hc as [Hc| ->]; [|done].
    rewrite Hc. split; [done|].
    destruct (N.eqb_spec c space) as [->|]; [done|done]. }
  destruct Hkeep as [-> ->]. done.
Qed.
End NameFacts.

(** X10. The name of the file of a query is made of alphanumeric characters
    and underscores, followed by '.json': it holds no space, no path
    separator and no other dot, so the document is written in the working
    directory whatever the query. *)
Theorem filename_stays_in_directory `{PyLib} (query : str) :
  (forall c, c ∈ safe_query query -> isalnum c = true \/ c = underscore)
  /\ (space ∉ filename_of query)
  /\ (47%N ∉ filename_of query)
  /\ (92%N ∉ filename_of query)
  /\ (46%N ∉ safe_query query).
Proof.
  pose proof (safe_query_chars query) as Hchars.
  assert (Hname : forall c, c ∈ safe_query query -> isalnum c = true \/ c = underscore).
  { intros c Hc. by eapply Forall_forall in Hchars. }
  assert (Hout : forall c, isalnum c = false -> c <> underscore ->
            c ∉ py ".json" -> c ∉ filename_of query).
  { intros c Halnum Hne Hext [Hin|Hin]%elem_of_app; [|done].
    destruct (Hname c Hin); congruence. }
  split; [done|].
  repeat split; try (apply Hout; [done|done|]).
  - intros Hin. apply list_elem_of_In in Hin. simpl in Hin. intuition discriminate.
  - intros Hin. apply list_elem_of_In in Hin. simpl in Hin. intuition discriminate.
  - intros Hin. apply list_elem_of_In in Hin. simpl in Hin. intuition discriminate.
  - intros Hin. destruct (Hname _ Hin); discriminate.
Qed.

(** X11. Sanitizing is idempotent: the identifier of an identifier is the
    identifier itself, so a query that is already an identifier keeps its
    name. *)
Theorem safe_query_idempotent `{PyLib} (query : str) :
  safe_query (safe_query query) = safe_query query.
Proof. apply safe_query_fixed, safe_query_chars. Qed.

(** ** The batch *)

Section BatchRuns.
Context `{PyLib}.

(** Queries processed one after another, each with its own finishing times. *)
Lemma batch_saved (fqs : list ((nat -> nat) * str)) g e w :
  (forall fq, fq ∈ fqs -> sink e (filename_of fq.2) = Written) ->
  readable e ->
  exists w',
    until_raise g ((fun fq => process_query fq.1 fq.2) <$> fqs) e w
    = (Ok (replicate (length fqs) tt), w')
    /\ (forall f, (forall fq, fq ∈ fqs -> filename_of fq.2 <> f) ->
          files w' !! f = files w !! f)
    /\ (forall fq, fq ∈ fqs ->
          exists q ps, q ∈ fqs.*2 /\ filename_of q = filename_of fq.2
                       /\ length ps = Z.to_nat PAGES
                       /\ files w' !! filename_of fq.2 = Some (Complete {[ q := ps ]})).
Proof.
  intros Hw He. revert w Hw. induction fqs as [|[finish query] fqs IH]; intros w Hw.
  - exists w. split; [done|]. split; [done|]. by intros fq ?%not_elem_of_nil.
  - destruct (process_query_saved finish query e w) as (ps & w1 & Hrun & Hlen & Hfiles);
      [apply (Hw (finish, query)); by left|done|].
    destruct (IH w1) as (w' & Hrest & Hother & Hsaved).
    { intros fq Hfq. apply Hw. by right. }
    exists w'. split; [|split].
    + rewrite fmap_cons. cbn [until_raise fst snd]. by rewrite Hrun, Hrest.
    + intros f Hf. rewrite Hother, Hfiles.
      * apply lookup_insert_ne. apply (Hf (finish, query)). by left.
      * intros fq Hfq. apply Hf. by right.
    + intros fq [->|Hfq]%elem_of_cons.
      * cbn [snd].
        destruct (decide (Exists (fun fq' => filename_of fq'.2 = filename_of query) fqs))
          as [Hlater|Hlast].
        -- apply Exists_exists in Hlater as (fq' & Hfq' & Hname).
           destruct (Hsaved fq' Hfq') as (q & ps' & Hq & Hqname & Hlen' & Hdoc).
           exists q, ps'. rewrite <- Hname. rewrite fmap_cons.
           split; [by right|]. split; [congruence|done].
        -- exists query, ps. rewrite fmap_cons. split; [by left|]. split; [done|].
           split; [done|]. rewrite Hother, Hfiles; [apply lookup_insert_eq|].
           intros fq' Hfq' Hname. apply Hlast, Exists_exists. eauto.
      * destruct (Hsaved fq Hfq) as (q & ps' & Hq & Hqname & Hlen' & Hdoc).
        exists q, ps'. rewrite fmap_cons. split; [by right|done].
Qed.

(** The tasks of [main] in the order in which they finish. *)
Lemma tasks_in_order (s : schedule) (queries : list str) (order : list nat) :
  omap (fun i => main_tasks fetch_page s queries !! i) order
  = (fun fq => process_query fq.1 fq.2)
      <$> omap (fun i => (fun query => (page_finish s i, query)) <$> queries !! i) order.
Proof.
  unfold main_tasks.
  induction order as [|i order IH]; [done|]. csimpl.
  rewrite list_lookup_imap, IH. by destruct (queries !! i).
Qed.

Lemma finished_queries (pages : nat -> nat -> nat) (queries : list str) finish :
  let fqs := omap (fun i => (fun query => (pages i, query)) <$> queries !! i)
               (completion_order finish (length queries)) in
  length fqs = length queries
  /\ (forall fq, fq ∈ fqs -> fq.2 ∈ queries)
  /\ (forall q, q ∈ queries -> exists fq, fq ∈ fqs /\ fq.2 = q).
Proof.
  intros fqs. subst fqs. unfold completion_order.
  set (order := merge_sort _ _).
  assert (Horder : order ≡ₚ seq 0 (length queries)) by apply merge_sort_Permutation.
  split; [|split].
  - assert (Hlen : length order = length queries)
      by (rewrite Horder; apply length_seq).
    rewrite <- Hlen.
    assert (Hin : forall i, i ∈ order -> (i < length queries)%nat).
    { intros i. rewrite Horder, elem_of_seq. lia. }
    clear Horder Hlen. induction order as [|i order IH]; [done|]. csimpl.
    destruct (lookup_lt_is_Some_2 queries i) as [q Hq]; [apply Hin; by left|].
    rewrite Hq. csimpl. f_equal. apply IH. intros j Hj. apply Hin. by right.
  - intros fq (i & _ & Hfq)%list_elem_of_omap.
    destruct (queries !! i) as [q|] eqn:Hq; simplify_eq/=.
    by eapply list_elem_of_lookup_2.
  - intros q (i & Hi)%list_elem_of_lookup_1. exists (pages i, q). split; [|done].
    apply list_elem_of_omap. exists i. split; [|by rewrite Hi].
    rewrite Horder. apply elem_of_seq. apply lookup_lt_Some in Hi. lia.
Qed.
End BatchRuns.

(** X12. When the sink takes every document and every page that comes back
    can be parsed, [main] ends without an exception whatever the order in
    which the queries and their pages finish; the file of every query then
    holds a whole document of [PAGES] pages, that of a query with this
    file name, and the files that no query names are left as they were. *)
Theorem main_writes_every_query `{PyLib} (s : schedule) (queries : list str)
    (e : env) (w : world) :
  (forall query, query ∈ queries -> sink e (filename_of query) = Written) ->
  readable e ->
  exists w',
    main s queries e w = (Ok (replicate (length queries) tt), w')
    /\ (forall query, query ∈ queries ->
          exists q ps, q ∈ queries /\ filename_of q = filename_of query
                       /\ length ps = Z.to_nat PAGES
                       /\ files w' !! filename_of query = Some (Complete {[ q := ps ]}))
    /\ (forall f, (forall query, query ∈ queries -> filename_of query <> f) ->
          files w' !! f = files w !! f).
Proof.
  intros Hw He. unfold main, main_with, gather.
  rewrite tasks_in_order. unfold main_tasks at 1. rewrite length_imap.
  destruct (finished_queries (page_finish s) queries (query_finish s))
    as (Hlen & Hsub & Hsup).
  set (fqs := omap _ _) in *.
  destruct (batch_saved fqs (grace s) e w) as (w' & Hrun & Hother & Hsaved);
    [by intros fq Hfq; apply Hw, Hsub|done|].
  exists w'. rewrite Hrun, Hlen. split; [done|]. split.
  - intros query (fq & Hfq & <-)%Hsup.
    destruct (Hsaved fq Hfq) as (q & ps & (fq' & -> & Hfq')%list_elem_of_fmap & Hrest).
    exists fq'.2, ps. split; [by apply Hsub|done].
  - intros f Hf. apply Hother. intros fq Hfq. by apply Hf, Hsub.
Qed.

Lemma main_writes_every_query_witness :
  exists w',
    @main stub_lib in_order [py "cats"; py "dogs"] (readonly_env []) initial_world
    = (Ok [tt; tt], w')
    /\ is_Some (files w' !! py "cats.json") /\ is_Some (files w' !! py "dogs.json").
Proof.
  destruct (@main_writes_every_query stub_lib in_order [py "cats"; py "dogs"]
              (readonly_env []) initial_world) as (w' & Hrun & Hsaved & _).
  - intros query [->|[->|Hq%not_elem_of_nil]%elem_of_cons]%elem_of_cons;
      [reflexivity|reflexivity|done].
  - intros url ua k html [= <-]. reflexivity.
  - exists w'. split; [exact Hrun|]. split.
    + destruct (Hsaved (py "cats")) as (q & ps & _ & _ & _ & Hdoc); [by left|].
      change (@filename_of stub_lib (py "cats")) with (py "cats.json") in Hdoc.
      by rewrite Hdoc.
    + destruct (Hsaved (py "dogs")) as (q & ps & _ & _ & _ & Hdoc); [by right; left|].
      change (@filename_of stub_lib (py "dogs")) with (py "dogs.json") in Hdoc.
      by rewrite Hdoc.
Defined.

(** X13. What [process_query] adds to its trace is, in this order, the
    acquisition of a slot of the query semaphore, the [PAGES] fetches of
    its [gather], at most one writing to the file of the query, and the
    release of the slot: the slot is held from the first event to the
    last on every way out.  [process_query] returns only when the whole
    document is in the file; when [open] raises, the exception leaves
    [process_query] and the files are as before; when the writing raises,
    the file is left with a part of the document; and whenever
    [process_query] raises, the file of the query is as before or
    partial, never a new whole document. *)
Theorem process_query_releases_its_slot `{PyLib} (finish : nat -> nat) (query : str)
    (e : env) (w : world) :
  let r := (process_query finish query e w).1 in
  let w' := (process_query finish query e w).2 in
  (exists save,
     drop (length (trace w)) (trace w')
     = [Ev (EvAcquire QuerySem); Tasks (fetch_scripts e (page_urls query) (ua_draws w))]
       ++ (Ev <$> save) ++ [Ev (EvRelease QuerySem)]
     /\ (save = [] \/ save = [EvWrite (filename_of query)])
     /\ (sink e (filename_of query) = OpenFails -> save = []))
  /\ length (fetch_scripts e (page_urls query) (ua_draws w)) = Z.to_nat PAGES
  /\ (r = Ok tt ->
      exists data, files w' = <[filename_of query := Complete data]> (files w))
  /\ (sink e (filename_of query) = OpenFails ->
      (exists x, r = Raise x) /\ files w' = files w)
  /\ (sink e (filename_of query) = WriteFails -> readable e ->
      r = Raise OSError /\ files w' = <[filename_of query := Partial]> (files w))
  /\ (forall x, r = Raise x ->
        files w' = files w \/ files w' = <[filename_of query := Partial]> (files w)).
Proof.
  intros r w'. subst r w'. rewrite process_query_run. cbn [fst snd trace files].
  rewrite drop_app_length.
  unfold save_events, process_outcome, process_file.
  split; [|split; [|split; [|split; [|split]]]].
  - eexists. split; [done|].
    destruct (scrape_outcome e query (ua_draws w)); [|by split; [left|]].
    destruct (sink e (filename_of query)); split; by (left + right + idtac).
  - assert (Hlen : forall urls draw, length (fetch_scripts e urls draw) = length urls).
    { intros urls. induction urls as [|url urls IH]; intros draw; simpl; by rewrite ?IH. }
    by rewrite Hlen, page_urls_length.
  - destruct (scrape_outcome e query (ua_draws w)) as [data|x]; [|done].
    destruct (sink e (filename_of query)); try done. intros _. by exists data.
  - intros ->. destruct (scrape_outcome e query (ua_draws w)) as [data|x];
      (split; [by eexists|done]).
  - intros -> He.
    destruct (scrape_outcome_readable e query (ua_draws w) He) as (ps & -> & _). done.
  - intros x. destruct (scrape_outcome e query (ua_draws w)) as [data|y]; [|by left].
    destruct (sink e (filename_of query)); try done; intros _; by (left + right).
Qed.

Lemma process_query_releases_its_slot_witness :
  files (@process_query stub_lib (fun i => i) (py "a") (readonly_env (py "a.json"))
           initial_world).2 = ∅.
Proof.
  apply (@process_query_releases_its_slot stub_lib (fun i => i) (py "a")
           (readonly_env (py "a.json")) initial_world).
  reflexivity.
Defined.

(** X16. A failure of the sink leaves the documents written before it:
    when the query that finishes first is saved and the sink refuses the
    next one, [main] ends with the exception and the file of the first
    query holds its document. *)
Theorem earlier_documents_stay `{PyLib} (q1 q2 : str) (pages : nat -> nat -> nat)
    (g : nat) (e : env) (w : world) :
  sink e (filename_of q1) = Written ->
  sink e (filename_of q2) = OpenFails ->
  readable e ->
  exists ps w',
    main {| query_finish := fun i => i; page_finish := pages; grace := g |} [q1; q2] e w
    = (Raise OSError, w')
    /\ length ps = Z.to_nat PAGES
    /\ files w' = <[filename_of q1 := Complete {[ q1 := ps ]}]> (files w).
Proof.
  intros Hw1 Hw2 He.
  destruct (process_query_saved (pages 0%nat) q1 e w Hw1 He)
    as (ps & w1 & Hrun1 & Hlen & Hfiles1).
  destruct (process_query_refused (pages 1%nat) q2 e w1 Hw2)
    as (x & w' & Hrun2 & Hfiles2 & Hx).
  rewrite (Hx He) in Hrun2.
  exists ps, w'. split; [|split; [done|congruence]].
  unfold main, main_with, gather. simpl.
  unfold process_query in Hrun1, Hrun2. rewrite Hrun1, Hrun2.
  by destruct g.
Qed.

Lemma earlier_documents_stay_witness :
  exists w',
    @main stub_lib in_order [py "b"; py "a"] (readonly_env (py "a.json")) initial_world
    = (Raise OSError, w')
    /\ is_Some (files w' !! py "b.json").
Proof.
  destruct (@earlier_documents_stay stub_lib (py "b") (py "a") (page_finish in_order) 0
              (readonly_env (py "a.json")) initial_world)
    as (ps & w' & Hrun & _ & Hfiles).
  - reflexivity.
  - reflexivity.
  - intros url ua k html [= <-]. reflexivity.
  - exists w'. split; [exact Hrun|]. rewrite Hfiles.
    change (@filename_of stub_lib (py "b")) with (py "b.json").
    rewrite lookup_insert_eq. by eexists.
Defined.

(** ** Progress of the event loop *)

Module LoopProgress.
Import Loop LoopFacts.

(** Every step does one of the things that are left to do. *)
Lemma step_work a st st' : step a st = Some st' -> work st = S (work st').
Proof.
  intros Hstep. unfold work.
  destruct a as [q|q p]; simpl in Hstep;
    destruct (threads st !! q) as [th|] eqn:Hq; simpl in Hstep; try done;
    destruct (ttodo th) as [|[ev|children] rest] eqn:Htodo; try done.
  - destruct (fire ev (sem st, query_sem st)) as [v|]; simplify_eq/=.
    pose proof (weight_insert work_of _ _
                  {| tdone := tdone th ++ [ev]; ttodo := rest |} _ Hq) as Hw.
    assert (Hth : work_of th = S (work_of {| tdone := tdone th ++ [ev]; ttodo := rest |})).
    { unfold work_of. rewrite Htodo. simpl. lia. }
    lia.
  - destruct (forallb finished children) eqn:Hfin; simplify_eq/=.
    pose proof (weight_insert work_of _ _
                  {| tdone := tdone th; ttodo := rest |} _ Hq) as Hw.
    assert (Hth : work_of th = S (work_of {| tdone := tdone th; ttodo := rest |})); [|lia].
    unfold work_of. rewrite Htodo. cbn [ttodo kids flat_map length].
    rewrite weight_app.
    rewrite (weight_zero (fun c => length (ctodo c)) children); [lia|].
    apply Forall_forall. intros c Hc%list_elem_of_In.
    apply forallb_forall with (x := c) in Hfin; [|done].
    unfold finished in Hfin. apply bool_decide_eq_true in Hfin. by rewrite Hfin.
  - destruct (children !! p) as [c|] eqn:Hp; simpl in Hstep; [|done].
    destruct (ctodo c) as [|ev crest] eqn:Hctodo; [done|].
    destruct (fire ev (sem st, query_sem st)) as [v|]; simplify_eq/=.
    set (c' := {| cdone := cdone c ++ [ev]; ctodo := crest |}).
    pose proof (weight_insert work_of _ _
                  {| tdone := tdone th; ttodo := Group (<[p := c']> children) :: rest |}
                  _ Hq) as Hw.
    pose proof (weight_insert (fun c => length (ctodo c)) children p c' c Hp) as Hc.
    assert (Hth : work_of th
                  = S (work_of {| tdone := tdone th;
                                  ttodo := Group (<[p := c']> children) :: rest |})); [|lia].
    unfold work_of. rewrite Htodo. cbn [ttodo kids flat_map length].
    rewrite !weight_app. cbn beta in Hc. rewrite Hctodo in Hc.
    cbn [c' ctodo length] in Hc. lia.
Qed.

Lemma steps_taken_work actions st :
  (steps_taken actions st + work (run actions st) = work st)%nat.
Proof.
  revert st. induction actions as [|a actions IH]; intros st; simpl; [done|].
  destruct (step a st) as [st'|] eqn:Hstep; simpl; [|apply IH].
  apply step_work in Hstep. specialize (IH st'). lia.
Qed.

Lemma weight_bound {A} (f : A -> nat) (k : nat) (l : list A) :
  Forall (fun x => (f x <= k)%nat) l -> (sum_list (f <$> l) <= k * length l)%nat.
Proof. induction 1 as [|x l Hx _ IH]; csimpl; lia. Qed.

(** A call of [fetch_page] has at most [RETRIES] attempts of five events
    and a sleep between them. *)
Lemma fetch_events_length e url draw : (length (fetch_events e url draw) <= 17)%nat.
Proof.
  unfold fetch_events. rewrite (loop_events_backed_off _ _ _ 0 RETRIES) by done.
  pose proof (attempts_made_bounds (http_get e url (ua_random e draw)) 0%nat (seq 1 2))
    as Hn.
  change (0%nat :: seq 1 2) with (seq 0 RETRIES) in Hn.
  destruct (attempts_made _ (seq 0 RETRIES)) as [|[|[|[|n]]]]; simpl in *; lia.
Qed.

Lemma fetch_scripts_length e urls draw :
  (sum_list (length <$> fetch_scripts e urls draw) <= 17 * length urls)%nat.
Proof.
  revert draw. induction urls as [|url urls IH]; intros draw; [simpl; lia|].
  change (fetch_scripts e (url :: urls) draw)
    with (fetch_events e url draw :: fetch_scripts e urls (S draw)).
  rewrite fmap_cons. cbn [sum_list_with length]. unfold id at 1.
  pose proof (fetch_events_length e url draw). specialize (IH (S draw)). lia.
Qed.

Lemma process_query_work `{PyLib} finish query e w :
  (work_of {| tdone := []; ttodo := load <$> script_of (process_query finish query) e w |}
   <= 89)%nat.
Proof.
  rewrite script_of_process_query. unfold work_of. cbn [ttodo].
  pose proof (fetch_scripts_length e (page_urls query) (ua_draws w)) as Hlen.
  rewrite page_urls_length in Hlen. change (Z.to_nat PAGES) with 5%nat in Hlen.
  revert Hlen. generalize (fetch_scripts e (page_urls query) (ua_draws w)).
  intros scripts Hlen.
  assert (Hkids : sum_list ((fun c => length (ctodo c))
                              <$> ((fun c => {| cdone := []; ctodo := c |}) <$> scripts))
                  = sum_list (length <$> scripts)).
  { by rewrite <- list_fmap_compose. }
  destruct (save_events_cases e query (ua_draws w)) as [-> | ->]; csimpl;
    rewrite ?app_nil_r, Hkids; lia.
Qed.

Lemma main_work `{PyLib} s queries e starts :
  (work (start (main_scripts s queries e starts)) <= 89 * length queries)%nat.
Proof.
  unfold work, start. cbn [threads]. rewrite <- list_fmap_compose.
  assert (Hlen : length (main_scripts s queries e starts) = length queries).
  { unfold main_scripts, main_tasks. by rewrite !length_imap. }
  rewrite <- Hlen. apply weight_bound, Forall_lookup. intros i script.
  unfold main_scripts, main_tasks. rewrite !list_lookup_imap.
  destruct (queries !! i) as [query|]; simpl; [|done]. intros [= <-].
  apply process_query_work.
Qed.

(** When every task is done, every slot is back. *)
Lemma all_done_full st :
  balanced st -> all_done st = true ->
  sem st = slots PageSem /\ query_sem st = slots QuerySem.
Proof.
  intros (HQ & HP & Hok) Hdone. unfold all_done in Hdone.
  assert (Hnil : Forall (fun th => ttodo th = []) (threads st)).
  { apply Forall_forall. intros th Hth%list_elem_of_In.
    apply forallb_forall with (x := th) in Hdone; [|done].
    by apply bool_decide_eq_true in Hdone. }
  rewrite (weight_zero _ (threads st)) in HQ.
  - rewrite (weight_zero _ (threads st)) in HP; [lia|].
    eapply Forall_impl; [exact Hnil|]. intros th Hth. unfold page_held. by rewrite Hth.
  - apply Forall_forall. intros th Hth.
    pose proof (proj1 (Forall_forall _ _) Hok th Hth) as (Hsc & _).
    rewrite (proj1 (Forall_forall _ _) Hnil th Hth) in Hsc. simpl in Hsc. congruence.
Qed.
End LoopProgress.

(** X14. The nested use of the two semaphores cannot block the batch: in
    every state that a run of the event loop over the tasks of [main]
    reaches, either every task is done, and then both semaphores have all
    their slots again, or some task can do its next step. *)
Theorem limiters_never_deadlock `{PyLib} (s : schedule) (queries : list str)
    (e : env) (starts : nat -> world) (actions : list Loop.action) :
  let st := Loop.run actions (Loop.start (main_scripts s queries e starts)) in
  (Loop.all_done st = true /\ Loop.sem st = 10%nat /\ Loop.query_sem st = 3%nat)
  \/ (Loop.all_done st = false /\ exists a, is_Some (Loop.step a st)).
Proof.
  intros st.
  pose proof (LoopFacts.main_balanced s queries e starts actions) as Hbal. fold st in Hbal.
  destruct (Loop.all_done st) eqn:Hdone.
  - left. split; [done|]. by apply LoopProgress.all_done_full.
  - right. split; [done|]. by apply LoopFacts.balanced_moves.
Qed.

(** X15. No task runs for ever: of the actions of a run of the event loop
    over the tasks of [main], at most 89 for each query are steps: the
    four events and the [gather] of [process_query], and for each of its
    [PAGES] fetches at most [RETRIES] attempts of five events with a
    sleep between them. *)
Theorem every_run_is_bounded `{PyLib} (s : schedule) (queries : list str)
    (e : env) (starts : nat -> world) (actions : list Loop.action) :
  (Loop.steps_taken actions (Loop.start (main_scripts s queries e starts))
   <= 89 * length queries)%nat.
Proof.
  pose proof (LoopProgress.steps_taken_work actions
                (Loop.start (main_scripts s queries e starts))) as Hsteps.
  pose proof (LoopProgress.main_work s queries e starts) as Hwork. lia.
Qed.
